(** * core-js-101, 05-objects-tasks.js: Rectangle, getJSON/fromJSON and the
      css selector builder

    The selector builder [SB] is a JavaScript class whose instances hold one
    field, [a], a reference to an array of fragments [[kind, text]].  The
    embedding keeps the two levels of reference of the source: a store of
    arrays and a store of [SB] instances, both append-only because
    JavaScript never frees and the source never assigns to an existing
    array slot or to the field of an existing instance.  Methods are
    computations in a state-and-exception monad over that store.  The
    values given to the fragment-adding methods and the combinator token
    are strings. *)

From stdpp Require Import base strings list sorting.
From Stdlib Require Import ZArith Lia Floats Ascii.
From Stdlib Require Import DecimalPos.

(** ** Fragments *)

(** The first component of a fragment is one of six string tags in the
    source; [tag] gives the tag of each kind. *)
Inductive kind :=
  | KElement | KId | KClass | KAttr | KPseudoClass | KPseudoElement.

Definition tag (k : kind) : string :=
  match k with
  | KElement => "element"
  | KId => "id"
  | KClass => "class"
  | KAttr => "attr"
  | KPseudoClass => "pseudoClass"
  | KPseudoElement => "pseudoElement"
  end.

#[global] Instance kind_eq_dec : EqDecision kind.
Proof. solve_decision. Defined.

(** [e[0] === 'element'] and the like. *)
Definition kind_eqb (k1 k2 : kind) : bool := bool_decide (k1 = k2).

(** [const p = { element: 0, id: 1, class: 2, attr: 3, pseudoClass: 4,
    pseudoElement: 5 }] *)
Definition p (k : kind) : Z :=
  match k with
  | KElement => 0
  | KId => 1
  | KClass => 2
  | KAttr => 3
  | KPseudoClass => 4
  | KPseudoElement => 5
  end%Z.

(** A fragment [[kind, text]]. *)
Abbreviation frag := (kind * string)%type (only parsing).

Definition err1 : string :=
  "Selector parts should be arranged in the following order: element, id, class, attribute, pseudo-class, pseudo-element".
Definition err2 : string :=
  "Element, id and pseudo-element should not occur more then one time inside the selector".

(** ** Store, completions and the monad of method bodies *)

(** References are indices into the stores. *)
Abbreviation loc := nat (only parsing).

Record heap := Heap {
  arrays : list (list frag);   (* array objects, by reference *)
  objects : list loc           (* SB instances: the value of their field [a] *)
}.

Inductive exn :=
  | Error (message : string)   (* [throw new Error(message)] *)
  | TypeError.                 (* property access on [undefined] *)

Inductive completion (A : Type) :=
  | Normal (v : A)
  | Throw (e : exn).
Arguments Normal {A} v.
Arguments Throw {A} e.

Definition M (A : Type) : Type := heap -> heap * completion A.

#[global] Instance M_ret : MRet M := fun A v h => (h, Normal v).
#[global] Instance M_bind : MBind M := fun A B f m h =>
  match m h with
  | (h', Normal v) => f v h'
  | (h', Throw e) => (h', Throw e)
  end.

Definition throw {A} (e : exn) : M A := fun h => (h, Throw e).

(** An array literal or the result of [concat]: a new array object. *)
Definition array_new (xs : list frag) : M loc := fun h =>
  (Heap (arrays h ++ [xs]) (objects h), Normal (length (arrays h))).

(** Reading the elements of the array behind a reference. *)
Definition array_get (a : loc) : M (list frag) := fun h =>
  match arrays h !! a with
  | Some xs => (h, Normal xs)
  | None => (h, Throw TypeError)
  end.

(** [a.concat(ys)]: a new array, the receiver is not modified. *)
Definition concat (a : loc) (ys : list frag) : M loc :=
  xs ← array_get a; array_new (xs ++ ys).

(** [a.some(f)] *)
Definition some (a : loc) (f : frag -> bool) : M bool :=
  xs ← array_get a; mret (existsb f xs).

(** Allocation of [this] by [new SB(...)] together with [this.a = a]. *)
Definition object_new (a : loc) : M loc := fun h =>
  (Heap (arrays h) (objects h ++ [a]), Normal (length (objects h))).

(** [o.a] *)
Definition get_a (o : loc) : M loc := fun h =>
  match objects h !! o with
  | Some a => (h, Normal a)
  | None => (h, Throw TypeError)
  end.

(** The fragment sequence of the builder [b] in the store [h]. *)
Definition frags (h : heap) (b : loc) : option (list frag) :=
  a ← objects h !! b; arrays h !! a.

(** ** class SB *)

(** The loop of the constructor,
    [for (let i = 1; i < a.length; i += 1)
       if (p[this.a[i - 1][0]] > p[this.a[i][0]]) throw ...],
    by recursion on the array: [false] when the loop throws. *)
Fixpoint ordered (xs : list frag) : bool :=
  match xs with
  | e1 :: (e2 :: _) as rest =>
      if (p (fst e1) >? p (fst e2))%Z then false else ordered rest
  | _ => true
  end.

Module SB.

(** [constructor(a = [], validate = true)] with both arguments given. *)
Definition new (a : loc) (validate : bool) : M loc :=
  this ← object_new a;
  if validate then
    xs ← array_get a;
    if ordered xs then mret this else throw (Error err1)
  else mret this.

Definition element (this : loc) (s : string) : M loc :=
  a ← get_a this;
  dup ← some a (fun e => kind_eqb (fst e) KElement);
  if (dup : bool) then throw (Error err2)
  else a' ← concat a [(KElement, s)]; new a' true.

Definition id (this : loc) (s : string) : M loc :=
  a ← get_a this;
  dup ← some a (fun e => kind_eqb (fst e) KId);
  if (dup : bool) then throw (Error err2)
  else a' ← concat a [(KId, "#" +:+ s)]; new a' true.

Definition class (this : loc) (s : string) : M loc :=
  a ← get_a this;
  a' ← concat a [(KClass, "." +:+ s)]; new a' true.

Definition attr (this : loc) (s : string) : M loc :=
  a ← get_a this;
  a' ← concat a [(KAttr, "[" +:+ s +:+ "]")]; new a' true.

Definition pseudoClass (this : loc) (s : string) : M loc :=
  a ← get_a this;
  a' ← concat a [(KPseudoClass, ":" +:+ s)]; new a' true.

Definition pseudoElement (this : loc) (s : string) : M loc :=
  a ← get_a this;
  dup ← some a (fun e => kind_eqb (fst e) KPseudoElement);
  if (dup : bool) then throw (Error err2)
  else a' ← concat a [(KPseudoElement, "::" +:+ s)]; new a' true.

(** [new SB(this.a.concat(s1.a).concat([['element', ` ${c} `]]).concat(s2.a), false)] *)
Definition combine (this : loc) (s1 : loc) (c : string) (s2 : loc) : M loc :=
  a ← get_a this;
  a1 ← get_a s1;
  xs1 ← array_get a1;
  t1 ← concat a xs1;
  t2 ← concat t1 [(KElement, " " +:+ c +:+ " ")];
  a2 ← get_a s2;
  xs2 ← array_get a2;
  t3 ← concat t2 xs2;
  new t3 false.

(** [this.a.map((e) => e[1]).join('')] *)
Definition stringify (this : loc) : M string :=
  a ← get_a this;
  xs ← array_get a;
  mret (String.concat "" (map snd xs)).

End SB.

(** [const cssSelectorBuilder = new SB()]: the default [a = []] is a new
    empty array, [validate] defaults to [true]. *)
Definition cssSelectorBuilder : M loc :=
  a ← array_new []; SB.new a true.

Definition heap0 : heap := Heap [] [].

(** The six fragment-adding methods, indexed by the kind they append. *)
Definition add (k : kind) (this : loc) (s : string) : M loc :=
  match k with
  | KElement => SB.element this s
  | KId => SB.id this s
  | KClass => SB.class this s
  | KAttr => SB.attr this s
  | KPseudoClass => SB.pseudoClass this s
  | KPseudoElement => SB.pseudoElement this s
  end.

(** The text each method stores for the value [s]. *)
Definition render (k : kind) (s : string) : string :=
  match k with
  | KElement => s
  | KId => "#" +:+ s
  | KClass => "." +:+ s
  | KAttr => "[" +:+ s +:+ "]"
  | KPseudoClass => ":" +:+ s
  | KPseudoElement => "::" +:+ s
  end.

(** The methods that start with the [some] test. *)
Definition guarded (k : kind) : bool :=
  match k with
  | KElement | KId | KPseudoElement => true
  | _ => false
  end.

Definition has_kind (k : kind) (xs : list frag) : bool :=
  existsb (fun e => kind_eqb (fst e) k) xs.

(** The store after a successful [concat] followed by [new SB]. *)
Definition grown (h : heap) (xs : list frag) : heap :=
  Heap (arrays h ++ [xs]) (objects h ++ [length (arrays h)]).

(** [h'] keeps every array and every instance of [h] as it is. *)
Definition extends (h h' : heap) : Prop :=
  arrays h `prefix_of` arrays h' ∧ objects h `prefix_of` objects h'.

Definition extensive {A} (m : M A) : Prop := ∀ h, extends h (m h).1.

(** ** Vocabulary of the statements *)

(** Some consecutive pair of [xs] is out of rank order: the condition under
    which the loop of the constructor throws. *)
Definition descent (xs : list (kind * string)) : Prop :=
  ∃ i e1 e2, xs !! i = Some e1 ∧ xs !! S i = Some e2 ∧ (p e1.1 > p e2.1)%Z.

(** Non-decreasing rank along the whole sequence. *)
Definition rank_sorted (xs : list (kind * string)) : Prop :=
  ∀ i j e1 e2, i ≤ j → xs !! i = Some e1 → xs !! j = Some e2 →
    (p e1.1 ≤ p e2.1)%Z.

(** The texts of the fragments, one after the other. *)
Definition text (xs : list (kind * string)) : string :=
  foldr (λ e acc, e.2 +:+ acc) "" xs.

(** Builders obtained from the exported instance [cssSelectorBuilder] by the
    six fragment-adding methods only.  Between two calls of the chain the
    program may run anything else: the store may have grown. *)
Inductive chained : heap → nat → Prop :=
  | chained_root h0 h b :
      cssSelectorBuilder h0 = (h, Normal b) → chained h b
  | chained_add k s h b h' b' :
      chained h b → add k b s h = (h', Normal b') → chained h' b'
  | chained_later h h' b :
      chained h b → extends h h' → chained h' b.

(** The method [m] stores the fragment [(k, r s)] after those of its
    receiver. *)
Definition appends (m : nat → string → M nat) (k : kind)
    (r : string → string) : Prop :=
  ∀ h this s xs h' b',
    frags h this = Some xs → m this s h = (h', Normal b') →
    frags h' b' = Some (xs ++ [(k, r s)])
    ∧ SB.stringify b' h' = (h', Normal (text xs +:+ r s)).

(** The method [m], which appends kind [k], throws the duplicate error
    exactly on receivers that hold a fragment of kind [k], and then without
    touching the store. *)
Definition rejects_duplicate (m : nat → string → M nat) (k : kind) : Prop :=
  ∀ h this s xs, frags h this = Some xs →
    ((m this s h).2 = Throw (Error err2) ↔ ∃ t, (k, t) ∈ xs)
    ∧ ((m this s h).2 = Throw (Error err2) → (m this s h).1 = h).

(** ** JavaScript values, for Rectangle, getJSON and fromJSON *)

(** A JavaScript string is a sequence of UTF-16 code units; [js] gives
    the string of an ASCII literal.  Numbers are IEEE 754 binary64
    floats.  Objects are their own enumerable string-keyed properties in
    enumeration order; functions are opaque. *)
Definition js (s : string) : list N :=
  N_of_ascii <$> String.list_ascii_of_string s.

#[warnings="-register-all"]
Inductive value :=
  | VUndefined
  | VNull
  | VBool (b : bool)
  | VNum (x : float)
  | VStr (s : list N)
  | VArr (elems : list value)
  | VObj (props : list (list N * value))
  | VFun.

(** ** function Rectangle(width, height) *)

(** The state of an instance: its two data properties, of the documented
    type [number].  Its third own property, [getArea], is the arrow
    function of the constructor, which reads [this.width] and
    [this.height] when it is called. *)
Record rectangle := { width : float; height : float }.

Definition Rectangle (w h : float) : rectangle :=
  {| width := w; height := h |}.

Definition getArea (this : rectangle) : float :=
  (width this * height this)%float.

(** [r.width = v] and [r.height = v] *)
Definition set_width (v : float) (this : rectangle) : rectangle :=
  {| width := v; height := height this |}.
Definition set_height (v : float) (this : rectangle) : rectangle :=
  {| width := width this; height := v |}.

(** What [new Rectangle(...args)] builds from any arguments: the two data
    properties hold the first two arguments as they are, [undefined] where
    one is missing. *)
Record rectangle_object := { this_width : value; this_height : value }.

Definition new_Rectangle (args : list value) : rectangle_object :=
  {| this_width := nth 0 args VUndefined;
     this_height := nth 1 args VUndefined |}.

(** The instance [new Rectangle(w, h)] of two numbers. *)
Definition object_of (r : rectangle) : rectangle_object :=
  {| this_width := VNum (width r); this_height := VNum (height r) |}.

(** An instance as a value: own properties in creation order. *)
Definition own_properties (o : rectangle_object) : value :=
  VObj [(js "width", this_width o); (js "height", this_height o);
        (js "getArea", VFun)].

(** ** Host functions: decimal text of a Number and back

    [JSON.stringify], [JSON.parse] and [Object.values] are built-ins of the
    host, not code of the repository; they are modelled after ECMAScript
    (Number::toString, QuoteJSONString, SerializeJSONProperty, the JSON
    grammar, CreateDataProperty, EnumerableOwnProperties). *)

(** The binary64 float nearest to the rational [p / q] ([0 ≤ p], [0 < q]),
    ties to even: the quotient is taken with 1200 binary places, below the
    last place of every binary64 number, and what is left over is the
    location that [binary_round_aux] rounds with. *)
Definition nearest (p q : Z) : spec_float :=
  let '(a, r) := Z.div_eucl (p * 2 ^ 1200) q in
  binary_round_aux prec emax false a (-1200)
    (if (r =? 0)%Z then loc_Exact else loc_Inexact (2 * r ?= q)%Z).

(** The number value of [s × 10^e10]. *)
Definition round_decimal (s e10 : Z) : spec_float :=
  if (0 <=? e10)%Z then nearest (s * 10 ^ e10) 1
  else nearest s (10 ^ (- e10)).

Definition decimal_float (s e10 : Z) : float := SF2Prim (round_decimal s e10).

Definition same_float (sf : spec_float) (m : positive) (e : Z) : bool :=
  match sf with
  | S754_finite false m' e' => (m' =? m)%positive && (e' =? e)%Z
  | _ => false
  end.

Fixpoint uint_units (d : Decimal.uint) : list N :=
  match d with
  | Decimal.Nil => []
  | Decimal.D0 d => 48%N :: uint_units d
  | Decimal.D1 d => 49%N :: uint_units d
  | Decimal.D2 d => 50%N :: uint_units d
  | Decimal.D3 d => 51%N :: uint_units d
  | Decimal.D4 d => 52%N :: uint_units d
  | Decimal.D5 d => 53%N :: uint_units d
  | Decimal.D6 d => 54%N :: uint_units d
  | Decimal.D7 d => 55%N :: uint_units d
  | Decimal.D8 d => 56%N :: uint_units d
  | Decimal.D9 d => 57%N :: uint_units d
  end.

(** The decimal digits of a positive integer. *)
Definition decimal (s : positive) : list N := uint_units (Pos.to_uint s).

(** [n] with [10^(n-1) ≤ p/q < 10^n]. *)
Definition magnitude (p q : positive) : Z :=
  if (q <=? p)%positive
  then Z.of_nat (length (decimal (Z.to_pos (Z.pos p / Z.pos q))))
  else
    let t := Z.of_nat (length (decimal (Z.to_pos (Z.pos q / Z.pos p)))) in
    if (Z.pos p * 10 ^ (t - 1) =? Z.pos q)%Z then (2 - t)%Z else (1 - t)%Z.

(** The integers [s] of [k] digits next to [p/q × 10^(k-n)], the nearer
    first (the even one on a tie), each with its power of ten; [10^k]
    itself is [1] with the next power. *)
Definition candidates (p q : positive) (n k : Z) : list (positive * Z) :=
  let j := (k - n)%Z in
  let '(num, den) :=
    if (0 <=? j)%Z then (Z.pos p * 10 ^ j, Z.pos q)%Z
    else (Z.pos p, Z.pos q * 10 ^ (- j))%Z in
  let '(lo, r) := Z.div_eucl num den in
  let cand (s : Z) : list (positive * Z) :=
    if (s <=? 0)%Z then []
    else if (s =? 10 ^ k)%Z then [(1%positive, n)]
    else [(Z.to_pos s, (n - k)%Z)] in
  if (r =? 0)%Z then cand lo
  else match (2 * r ?= den)%Z with
       | Lt => cand lo ++ cand (lo + 1)%Z
       | Gt => cand (lo + 1)%Z ++ cand lo
       | Eq => if Z.even lo then cand lo ++ cand (lo + 1)%Z
               else cand (lo + 1)%Z ++ cand lo
       end.

(** The exact decimal expansion of [m × 2^e]. *)
Definition exact_decimal (m : positive) (e : Z) : positive * Z :=
  if (0 <=? e)%Z then (Z.to_pos (Z.pos m * 2 ^ e), 0%Z)
  else (Z.to_pos (Z.pos m * 5 ^ (- e)), e).

(** Step 5 of Number::toString for [m × 2^e]: the least number of digits
    [k], from [k] on, for which some [s] of [k] digits has [s × 10^(n-k)]
    read as the number itself.  No binary64 number needs more than 17
    digits; the exact expansion closes the search. *)
Fixpoint shortest_from (fuel : nat) (k : Z) (m : positive) (e : Z)
    (p q : positive) (n : Z) : positive * Z :=
  match fuel with
  | O => exact_decimal m e
  | S fuel =>
      match find (λ c, same_float (round_decimal (Z.pos c.1) c.2) m e)
                 (candidates p q n k) with
      | Some c => c
      | None => shortest_from fuel (k + 1) m e p q n
      end
  end.

Definition shortest (m : positive) (e : Z) : positive * Z :=
  let '(p, q) :=
    if (0 <=? e)%Z then (Z.to_pos (Z.pos m * 2 ^ e), 1%positive)
    else (m, Z.to_pos (2 ^ (- e))) in
  shortest_from 17 1 m e p q (magnitude p q).

(** Steps 6 to 10 of Number::toString: the digits of [s], of which [n] are
    before the point. *)
Definition format_decimal (s : positive) (e10 : Z) : list N :=
  let ds := decimal s in
  let k := Z.of_nat (length ds) in
  let n := (k + e10)%Z in
  if (k <=? n)%Z && (n <=? 21)%Z then
    ds ++ replicate (Z.to_nat (n - k)) 48%N
  else if (0 <? n)%Z && (n <=? 21)%Z then
    take (Z.to_nat n) ds ++ 46%N :: drop (Z.to_nat n) ds
  else if (-6 <? n)%Z && (n <=? 0)%Z then
    48%N :: 46%N :: replicate (Z.to_nat (- n)) 48%N ++ ds
  else
    let e := (n - 1)%Z in
    let ex := (if (0 <=? e)%Z then 43%N else 45%N)
                :: decimal (Z.to_pos (Z.abs e)) in
    match ds with
    | [] => []
    | [d] => d :: 101%N :: ex
    | d :: rest => d :: 46%N :: rest ++ 101%N :: ex
    end.

(** Number::toString, radix 10. *)
Definition Number_toString (x : float) : list N :=
  match Prim2SF x with
  | S754_nan => js "NaN"
  | S754_infinity s => if s then js "-Infinity" else js "Infinity"
  | S754_zero _ => js "0"
  | S754_finite s m e =>
      let '(sd, e10) := shortest m e in
      (if s then [45%N] else []) ++ format_decimal sd e10
  end.

(** Zero and the finite numbers, as opposed to NaN and the infinities. *)
Definition Number_is_finite (x : float) : bool :=
  match Prim2SF x with
  | S754_zero _ | S754_finite _ _ _ => true
  | _ => false
  end.

Definition is_digit (c : N) : bool := (48 <=? c)%N && (c <=? 57)%N.

(** The longest prefix of digits, and what follows it. *)
Fixpoint scan_digits (s : list N) : list N * list N :=
  match s with
  | c :: r =>
      if is_digit c then let '(d, rest) := scan_digits r in (c :: d, rest)
      else ([], s)
  | [] => ([], [])
  end.

Definition digits_value (ds : list N) : Z :=
  fold_left (λ acc c, 10 * acc + (Z.of_N c - 48))%Z ds 0%Z.

(** [s] starts with the character [c]. *)
Definition starts (c : N) (s : list N) : bool :=
  match s with
  | c' :: _ => (c' =? c)%N
  | [] => false
  end.

Definition is_nil {A} (l : list A) : bool :=
  match l with [] => true | _ => false end.

(** Digits that start with [0] and go on. *)
Definition leading_zero (ds : list N) : bool :=
  match ds with
  | c :: _ :: _ => (c =? 48)%N
  | _ => false
  end.

(** The fraction of a JSON number: [.] and digits, or nothing. *)
Definition parse_fraction (s : list N) : option (list N * list N) :=
  if starts 46 s then
    let '(f, r) := scan_digits (tail s) in
    if is_nil f then None else Some (f, r)
  else Some ([], s).

(** The exponent of a JSON number: [e] or [E], a sign or none, and digits;
    or nothing. *)
Definition parse_exponent (s : list N) : option (Z * list N) :=
  if starts 101 s || starts 69 s then
    let r := tail s in
    let minus := starts 45 r in
    let r1 := if minus || starts 43 r then tail r else r in
    let '(ed, r2) := scan_digits r1 in
    if is_nil ed then None
    else Some (if minus then (- digits_value ed)%Z else digits_value ed, r2)
  else Some (0%Z, s).

(** A JSON number: [-]? int frac? exp?, where int has no leading zero. *)
Definition parse_number (s : list N) : option (float * list N) :=
  let neg := starts 45 s in
  let s1 := if neg then tail s else s in
  let '(int, s2) := scan_digits s1 in
  if is_nil int || leading_zero int then None
  else
    '(frac, s3) ← parse_fraction s2;
    '(ex, s4) ← parse_exponent s3;
    let x := decimal_float (digits_value (int ++ frac))
                           (ex - Z.of_nat (length frac)) in
    Some (if neg then (- x)%float else x, s4).

(** ** Host functions: strings *)

Definition hex_digit (n : N) : N := (if n <? 10 then 48 + n else 87 + n)%N.

(** [\uXXXX] with lower-case digits. *)
Definition unicode_escape (c : N) : list N :=
  [92; 117; hex_digit (c / 4096 mod 16); hex_digit (c / 256 mod 16);
   hex_digit (c / 16 mod 16); hex_digit (c mod 16)]%N.

Definition high_surrogate (c : N) : bool := (55296 <=? c)%N && (c <=? 56319)%N.
Definition low_surrogate (c : N) : bool := (56320 <=? c)%N && (c <=? 57343)%N.

(** QuoteJSONString, without the quotes: the short escapes, [\u00xx] for
    the other control characters and [\udxxx] for a surrogate that is not
    part of a pair. *)
Fixpoint escape (s : list N) : list N :=
  match s with
  | [] => []
  | c :: r =>
      match c with
      | 8 => 92 :: 98 :: escape r
      | 9 => 92 :: 116 :: escape r
      | 10 => 92 :: 110 :: escape r
      | 12 => 92 :: 102 :: escape r
      | 13 => 92 :: 114 :: escape r
      | 34 => 92 :: 34 :: escape r
      | 92 => 92 :: 92 :: escape r
      | _ =>
          if (c <? 32)%N then unicode_escape c ++ escape r
          else if high_surrogate c then
            match r with
            | c2 :: r2 =>
                if low_surrogate c2 then c :: c2 :: escape r2
                else unicode_escape c ++ escape r
            | [] => unicode_escape c
            end
          else if low_surrogate c then unicode_escape c ++ escape r
          else c :: escape r
      end%N
  end.

Definition quote (s : list N) : list N := 34%N :: escape s ++ [34%N].

Definition hex_value (c : N) : option N :=
  if (48 <=? c)%N && (c <=? 57)%N then Some (c - 48)%N
  else if (97 <=? c)%N && (c <=? 102)%N then Some (c - 87)%N
  else if (65 <=? c)%N && (c <=? 70)%N then Some (c - 55)%N
  else None.

(** The characters of a JSON string up to its closing quote. *)
Fixpoint parse_chars (s : list N) : option (list N * list N) :=
  match s with
  | [] => None
  | c :: r =>
      match c with
      | 34 => Some ([], r)
      | 92 =>
          match r with
          | 117 :: h1 :: h2 :: h3 :: h4 :: r' =>
              a ← hex_value h1; b ← hex_value h2;
              c ← hex_value h3; d ← hex_value h4;
              '(t, rest) ← parse_chars r';
              Some ((4096 * a + 256 * b + 16 * c + d) :: t, rest)
          | e :: r' =>
              c' ← match e with
                   | 34 => Some 34 | 92 => Some 92 | 47 => Some 47
                   | 98 => Some 8 | 102 => Some 12 | 110 => Some 10
                   | 114 => Some 13 | 116 => Some 9 | _ => None
                   end;
              '(t, rest) ← parse_chars r';
              Some (c' :: t, rest)
          | [] => None
          end
      | _ =>
          if (c <? 32)%N then None
          else '(t, rest) ← parse_chars r; Some (c :: t, rest)
      end%N
  end.

Fixpoint skip_ws (s : list N) : list N :=
  match s with
  | c :: r =>
      match c with
      | 32 | 9 | 10 | 13 => skip_ws r
      | _ => s
      end%N
  | [] => []
  end.

(** ** Host functions: objects *)

(** An array index: the canonical decimal text of an integer below
    2^32 - 1.  Such keys are enumerated first, in ascending order. *)
Definition array_index (k : list N) : option Z :=
  match scan_digits k with
  | (d, []) =>
      if is_nil d || leading_zero d then None
      else if (digits_value d <? 4294967295)%Z then Some (digits_value d)
           else None
  | _ => None
  end.

(** Insertion of a new index key [n] among the properties. *)
Fixpoint insert_index (n : Z) (k : list N) (v : value)
    (props : list (list N * value)) : list (list N * value) :=
  match props with
  | [] => [(k, v)]
  | (k', v') :: rest =>
      match array_index k' with
      | Some n' =>
          if (n' <? n)%Z then (k', v') :: insert_index n k v rest
          else (k, v) :: props
      | None => (k, v) :: props
      end
  end.

(** CreateDataProperty on an ordinary object: an existing key keeps its
    place and takes the new value; a new index key goes among the index
    keys; any other new key goes last. *)
Definition define_property (k : list N) (v : value)
    (props : list (list N * value)) : list (list N * value) :=
  if existsb (λ kv, bool_decide (kv.1 = k)) props
  then map (λ kv, if bool_decide (kv.1 = k) then (k, v) else kv) props
  else match array_index k with
       | Some n => insert_index n k v props
       | None => props ++ [(k, v)]
       end.

Module Object.

(** [Object.values(o)]: the values of the own enumerable string-keyed
    properties, in enumeration order; [None] is the TypeError on
    [undefined] and [null]. *)
Definition values (o : value) : option (list value) :=
  match o with
  | VObj props => Some (props.*2)
  | VArr elems => Some elems
  | VStr s => Some ((λ c, VStr [c]) <$> s)
  | VNum _ | VBool _ | VFun => Some []
  | VUndefined | VNull => None
  end.

End Object.

(** [ts.join(sep)] *)
Fixpoint join_with (sep : list N) (ts : list (list N)) : list N :=
  match ts with
  | [] => []
  | [t] => t
  | t :: ts' => t ++ sep ++ join_with sep ts'
  end.

(** A number in a JSON text: NaN and the infinities are written [null]. *)
Definition serialize_number (x : float) : list N :=
  if Number_is_finite x then Number_toString x else js "null".

Module JSON.

(** SerializeJSONProperty: [None] is [undefined]. *)
Fixpoint serialize (v : value) : option (list N) :=
  match v with
  | VUndefined | VFun => None
  | VNull => Some (js "null")
  | VBool b => Some (if b then js "true" else js "false")
  | VNum x => Some (serialize_number x)
  | VStr s => Some (quote s)
  | VArr elems =>
      let ts := (fix elements (l : list value) : list (list N) :=
                   match l with
                   | [] => []
                   | e :: l' => default (js "null") (serialize e) :: elements l'
                   end) elems in
      Some (91%N :: join_with [44%N] ts ++ [93%N])
  | VObj props =>
      let ts := (fix members (l : list (list N * value)) : list (list N) :=
                   match l with
                   | [] => []
                   | (k, e) :: l' =>
                       match serialize e with
                       | Some t => (quote k ++ 58%N :: t) :: members l'
                       | None => members l'
                       end
                   end) props in
      Some (123%N :: join_with [44%N] ts ++ [125%N])
  end.

(** [JSON.stringify(v)] *)
Definition stringify (v : value) : option (list N) := serialize v.

(** The JSON grammar by recursive descent; the fuel bounds the nesting and
    the number of elements and is taken from the length of the text. *)
Fixpoint parse_value (fuel : nat) (s : list N) : option (value * list N) :=
  match fuel with
  | O => None
  | S fuel =>
      match skip_ws s with
      | 34%N :: r => '(t, rest) ← parse_chars r; Some (VStr t, rest)
      | 110%N :: 117%N :: 108%N :: 108%N :: r => Some (VNull, r)
      | 116%N :: 114%N :: 117%N :: 101%N :: r => Some (VBool true, r)
      | 102%N :: 97%N :: 108%N :: 115%N :: 101%N :: r => Some (VBool false, r)
      | 91%N :: r =>
          match skip_ws r with
          | 93%N :: r' => Some (VArr [], r')
          | _ => parse_elements fuel r []
          end
      | 123%N :: r =>
          match skip_ws r with
          | 125%N :: r' => Some (VObj [], r')
          | _ => parse_members fuel r []
          end
      | s' => '(x, rest) ← parse_number s'; Some (VNum x, rest)
      end
  end
with parse_elements (fuel : nat) (s : list N) (acc : list value)
    : option (value * list N) :=
  match fuel with
  | O => None
  | S fuel =>
      '(v, r) ← parse_value fuel s;
      match skip_ws r with
      | 44%N :: r' => parse_elements fuel r' (acc ++ [v])
      | 93%N :: r' => Some (VArr (acc ++ [v]), r')
      | _ => None
      end
  end
with parse_members (fuel : nat) (s : list N) (acc : list (list N * value))
    : option (value * list N) :=
  match fuel with
  | O => None
  | S fuel =>
      match skip_ws s with
      | 34%N :: r =>
          '(k, r1) ← parse_chars r;
          match skip_ws r1 with
          | 58%N :: r2 =>
              '(v, r3) ← parse_value fuel r2;
              match skip_ws r3 with
              | 44%N :: r4 => parse_members fuel r4 (define_property k v acc)
              | 125%N :: r4 => Some (VObj (define_property k v acc), r4)
              | _ => None
              end
          | _ => None
          end
      | _ => None
      end
  end.

(** [JSON.parse(text)]; [None] is the SyntaxError. *)
Definition parse (text : list N) : option value :=
  '(v, rest) ← parse_value (S (length text)) text;
  match skip_ws rest with
  | [] => Some v
  | _ => None
  end.

End JSON.

(** ** getJSON and fromJSON *)

(** [return JSON.stringify(obj)] *)
Definition getJSON (obj : value) : option (list N) :=
  JSON.stringify obj.

(** A prototype object, by its [constructor] property: what
    [new proto.constructor(...args)] gives. *)
Record prototype (T : Type) := { constructor : list value → T }.
Arguments constructor {T} _ _.

(** [Rectangle.prototype] *)
Definition Rectangle_prototype : prototype rectangle_object :=
  {| constructor := new_Rectangle |}.

(** [return new proto.constructor(...Object.values(JSON.parse(json)))];
    [None] is the exception of [JSON.parse] or of [Object.values]. *)
Definition fromJSON {T} (proto : prototype T) (json : list N) : option T :=
  v ← JSON.parse json;
  args ← Object.values v;
  Some (constructor proto args).

Definition starts_digit (s : list N) : bool :=
  match s with
  | c :: _ => is_digit c
  | [] => false
  end.

(** What may follow a number in a text: not a digit and none of [.], [e]
    and [E]. *)
Definition number_end (rest : list N) : bool :=
  match rest with
  | c :: _ =>
      negb (is_digit c || (c =? 46)%N || (c =? 101)%N || (c =? 69)%N)
  | [] => true
  end.

(** A number read back from its JSON text: [-0] is written [0]. *)
Definition read_back (x : float) : float :=
  match Prim2SF x with
  | S754_zero _ => 0%float
  | _ => x
  end.

(** What [JSON.parse] reads where [JSON.stringify] wrote the number [x]:
    NaN and the infinities are written [null]. *)
Definition json_image (x : float) : value :=
  if Number_is_finite x then VNum (read_back x) else VNull.

(** The numbers that come back from a JSON text as they went in: the
    finite ones other than [-0]. *)
Definition round_trips (x : float) : bool :=
  match Prim2SF x with
  | S754_zero s => negb s
  | S754_finite _ _ _ => true
  | _ => false
  end.

(** The members [{"k1":t1,"k2":t2}] of a JSON text. *)
Definition object_text (k1 t1 k2 t2 : list N) : list N :=
  123%N :: quote k1 ++ 58%N :: t1 ++ 44%N :: quote k2 ++ 58%N :: t2 ++ [125%N].

(** The value of a digit string read after the digits of [acc]. *)
Definition dv (acc : Z) (ds : list N) : Z :=
  fold_left (λ acc c, 10 * acc + (Z.of_N c - 48))%Z ds acc.

(** The text of a number from its pieces: sign, integer digits, fraction
    digits (none: no fraction) and exponent (sign and digits). *)
Definition number_text (neg : bool) (int frac : list N)
    (ex : option (bool * list N)) : list N :=
  (if neg then [45%N] else []) ++ int
  ++ (if is_nil frac then [] else 46%N :: frac)
  ++ match ex with
     | Some (minus, ed) => 101%N :: (if minus then 45%N else 43%N) :: ed
     | None => []
     end.

Definition exponent_value (ex : option (bool * list N)) : Z :=
  match ex with
  | Some (minus, ed) => if minus then (- digits_value ed)%Z else digits_value ed
  | None => 0%Z
  end.

(** ** Chains of calls and further vocabulary *)

(** [b.m1(v1).m2(v2)...]: the fragment-adding methods called one on the
    result of the other, each call given by the kind it appends and its
    argument; the first call that throws ends the chain. *)
Fixpoint chain (calls : list (kind * string)) (b : nat) : M nat :=
  match calls with
  | [] => mret b
  | (k, v) :: rest => b' ← add k b v; chain rest b'
  end.

(** The fragments the calls of a chain store, in call order. *)
Definition rendered (calls : list (kind * string)) : list (kind * string) :=
  (λ kv, (kv.1, render kv.1 kv.2)) <$> calls.

(** No kind with a duplicate test (element, id, pseudoElement) occurs at
    two positions. *)
Definition singletons (xs : list (kind * string)) : Prop :=
  ∀ k i j ti tj, guarded k = true →
    xs !! i = Some (k, ti) → xs !! j = Some (k, tj) → i = j.

(** The ranks a receiver may hold for a call of kind [k] to return: below
    the rank of [k] when [k] has a duplicate test, at most that rank
    otherwise. *)
Definition admissible (k : kind) (xs : list (kind * string)) : Prop :=
  Forall (λ e, if guarded k then (p e.1 < p k)%Z else (p e.1 ≤ p k)%Z) xs.

(** * Properties *)

(** ** Kinds and their tags *)

(** Comparing kinds is comparing the string tags of the source. *)
Lemma kind_eqb_tag k1 k2 : kind_eqb k1 k2 = String.eqb (tag k1) (tag k2).
Proof. by destruct k1, k2. Qed.

(** ** The store only grows *)

#[global] Instance extends_preorder : PreOrder extends.
Proof.
  split.
  - intros h; split; reflexivity.
  - intros h1 h2 h3 [? ?] [? ?]; split; etrans; eauto.
Qed.

Lemma frags_extends h h' b xs :
  extends h h' → frags h b = Some xs → frags h' b = Some xs.
Proof.
  intros [Ha Ho]. unfold frags.
  destruct (objects h !! b) as [a|] eqn:Hb; simpl; [|done].
  intros Hx.
  rewrite (prefix_lookup_Some _ _ _ _ Hb Ho). simpl.
  by apply (prefix_lookup_Some _ _ _ _ Hx Ha).
Qed.

Lemma ret_extensive {A} (v : A) : extensive (mret v).
Proof. intros h. reflexivity. Qed.

Lemma throw_extensive {A} e : extensive (@throw A e).
Proof. intros h. reflexivity. Qed.

Lemma bind_extensive {A B} (m : M A) (f : A → M B) :
  extensive m → (∀ v, extensive (f v)) → extensive (m ≫= f).
Proof.
  intros Hm Hf h. specialize (Hm h).
  unfold mbind, M_bind. destruct (m h) as [h' [v|e]]; simpl in *.
  - etrans; [exact Hm|apply Hf].
  - exact Hm.
Qed.

Lemma array_new_extensive xs : extensive (array_new xs).
Proof. intros h. split; simpl; [by apply prefix_app_r|done]. Qed.

Lemma array_get_extensive a : extensive (array_get a).
Proof. intros h. unfold array_get. by destruct (arrays h !! a). Qed.

Lemma object_new_extensive a : extensive (object_new a).
Proof. intros h. split; simpl; [done|by apply prefix_app_r]. Qed.

Lemma get_a_extensive o : extensive (get_a o).
Proof. intros h. unfold get_a. by destruct (objects h !! o). Qed.

Create HintDb ext.
#[global] Hint Resolve ret_extensive throw_extensive array_new_extensive
  array_get_extensive object_new_extensive get_a_extensive : ext.

Ltac ext_step :=
  match goal with
  | |- extensive (_ ≫= _) => apply bind_extensive; [|intros ?]
  | |- extensive (if ?b then _ else _) => destruct b
  | |- extensive _ => solve [auto with ext]
  end.

Lemma concat_extensive a ys : extensive (concat a ys).
Proof. unfold concat. repeat ext_step. Qed.

Lemma some_extensive a f : extensive (some a f).
Proof. unfold some. repeat ext_step. Qed.

#[global] Hint Resolve concat_extensive some_extensive : ext.

Lemma new_extensive a v : extensive (SB.new a v).
Proof. unfold SB.new. repeat ext_step. Qed.

#[global] Hint Resolve new_extensive : ext.


Lemma combine_extensive this s1 c s2 : extensive (SB.combine this s1 c s2).
Proof. unfold SB.combine. repeat ext_step. Qed.

Lemma stringify_extensive this : extensive (SB.stringify this).
Proof. unfold SB.stringify. repeat ext_step. Qed.

(** ** What each method computes *)

Lemma frags_inv h b xs :
  frags h b = Some xs ↔ ∃ a, objects h !! b = Some a ∧ arrays h !! a = Some xs.
Proof.
  unfold frags. destruct (objects h !! b) as [a|]; simpl.
  - split; [eauto|]. by intros (a' & [= <-] & Ha).
  - split; [done|]. by intros (a' & [=] & _).
Qed.

Lemma lookup_snoc {A} (l : list A) (x : A) : (l ++ [x]) !! length l = Some x.
Proof. by rewrite list_lookup_middle. Qed.

Lemma frags_grown h xs : frags (grown h xs) (length (objects h)) = Some xs.
Proof.
  unfold frags, grown. simpl. rewrite lookup_snoc. simpl. apply lookup_snoc.
Qed.

(** [new SB(a, true)] on an array with elements [xs]. *)
Lemma new_validate_run h a xs :
  arrays h !! a = Some xs →
  SB.new a true h =
    (Heap (arrays h) (objects h ++ [a]),
     if ordered xs then Normal (length (objects h)) else Throw (Error err1)).
Proof.
  intros Ha. unfold SB.new, mbind, M_bind, object_new, array_get. simpl.
  rewrite Ha. by destruct (ordered xs).
Qed.

Lemma new_unchecked_run h a :
  SB.new a false h = (Heap (arrays h) (objects h ++ [a]), Normal (length (objects h))).
Proof. reflexivity. Qed.

(** Every fragment-adding method: the [some] test where the method has
    one, then [concat] and the validating constructor. *)
Lemma add_run k h this s xs :
  frags h this = Some xs →
  add k this s h =
    if guarded k && has_kind k xs then (h, Throw (Error err2))
    else (grown h (xs ++ [(k, render k s)]),
          if ordered (xs ++ [(k, render k s)])
          then Normal (length (objects h)) else Throw (Error err1)).
Proof.
  intros (a & Hb & Ha)%frags_inv.
  destruct k; simpl; unfold has_kind;
    unfold SB.element, SB.id, SB.class, SB.attr, SB.pseudoClass,
      SB.pseudoElement, some, concat, mbind, M_bind, get_a, array_get,
      array_new, mret, M_ret;
    rewrite Hb, ?Ha;
    try (destruct (existsb _ xs); [reflexivity|]);
    rewrite ?Ha; simpl;
    (erewrite new_validate_run; [reflexivity|simpl; apply lookup_snoc]).
Qed.

Lemma combine_run h this s1 c s2 xs ls rs :
  frags h this = Some xs → frags h s1 = Some ls → frags h s2 = Some rs →
  ∃ h', SB.combine this s1 c s2 h = (h', Normal (length (objects h)))
      ∧ frags h' (length (objects h))
        = Some (xs ++ ls ++ [(KElement, " " +:+ c +:+ " ")] ++ rs).
Proof.
  intros (a & Hb & Ha)%frags_inv (a1 & Hb1 & Ha1)%frags_inv
    (a2 & Hb2 & Ha2)%frags_inv.
  eexists. split.
  - unfold SB.combine, concat, mbind, M_bind, get_a, array_get, array_new.
    rewrite Hb, Hb1, Ha1, Ha. simpl.
    rewrite lookup_snoc. simpl. rewrite Hb2. cbn [arrays objects].
    rewrite (lookup_app_l_Some _ _ _ _ (lookup_app_l_Some _ [xs ++ ls] _ _ Ha2)).
    cbn [arrays objects]. rewrite lookup_snoc. reflexivity.
  - unfold frags. simpl. rewrite lookup_snoc. simpl.
    rewrite lookup_snoc. f_equal. by rewrite <- !(assoc_L (++)).
Qed.

Lemma stringify_run h this xs :
  frags h this = Some xs →
  SB.stringify this h = (h, Normal (String.concat "" (map snd xs))).
Proof.
  intros (a & Hb & Ha)%frags_inv.
  unfold SB.stringify, mbind, M_bind, get_a, array_get. by rewrite Hb, Ha.
Qed.

(** ** The loop of the constructor *)

Lemma ordered_cons e xs :
  ordered (e :: xs) = true ↔
  (∀ e', xs !! 0 = Some e' → (p e.1 ≤ p e'.1)%Z) ∧ ordered xs = true.
Proof.
  destruct xs as [|e' xs]; simpl.
  - naive_solver.
  - destruct (Z.gtb_spec (p e.1) (p e'.1)); split.
    + done.
    + intros [Hle _]. specialize (Hle e' eq_refl). lia.
    + intros Ho. split; [|done]. intros ? [= <-]. lia.
    + by intros [_ ?].
Qed.

Lemma ordered_descent xs : ordered xs = false ↔ descent xs.
Proof.
  induction xs as [|e xs IH].
  - split; [done|]. by intros (i & e1 & e2 & [=] & _).
  - split.
    + intros Hn. destruct xs as [|e' xs]; [done|].
      simpl in Hn. destruct (Z.gtb_spec (p e.1) (p e'.1)).
      * exists 0, e, e'. repeat split. lia.
      * apply IH in Hn as (i & e1 & e2 & ? & ? & ?).
        by exists (S i), e1, e2.
    + intros (i & e1 & e2 & H1 & H2 & Hgt).
      apply not_true_iff_false. intros [Hhd Ho]%ordered_cons.
      destruct i as [|i]; simpl in *.
      * injection H1 as <-. specialize (Hhd _ H2). lia.
      * assert (descent xs) as Hd by (by exists i, e1, e2).
        apply IH in Hd. congruence.
Qed.

Lemma ordered_sorted xs : ordered xs = true ↔ rank_sorted xs.
Proof.
  split.
  - induction xs as [|e xs IH]; intros Ho i j e1 e2 Hij Hi Hj.
    + done.
    + apply ordered_cons in Ho as [Hhd Ho]. specialize (IH Ho).
      destruct i as [|i], j as [|j]; simpl in *; try lia.
      * simplify_eq. lia.
      * injection Hi as <-. clear Hij.
        revert e2 Hj. induction j as [|j IHj]; intros e2 Hj; [by apply Hhd|].
        destruct (xs !! j) as [ej|] eqn:Hej.
        -- specialize (IHj _ eq_refl).
           pose proof (IH j (S j) ej e2 ltac:(lia) Hej Hj). lia.
        -- apply lookup_ge_None in Hej. apply lookup_lt_Some in Hj. lia.
      * apply (IH i j); [lia|done..].
  - intros Hs. apply not_false_iff_true. intros (i & e1 & e2 & H1 & H2 & Hgt)%ordered_descent.
    pose proof (Hs i (S i) e1 e2 ltac:(lia) H1 H2). lia.
Qed.

Lemma rank_sorted_StronglySorted xs :
  rank_sorted xs → StronglySorted Z.le (p <$> xs.*1).
Proof.
  induction xs as [|e xs IH]; intros Hs; simpl; constructor.
  - apply IH. intros i j e1 e2 ? ? ?. apply (Hs (S i) (S j)); [lia|done..].
  - apply Forall_forall. intros z (k & -> & (e' & -> & Hin)%list_elem_of_fmap)%list_elem_of_fmap.
    apply list_elem_of_lookup in Hin as [j Hj].
    apply (Hs 0 (S j) e e'); [lia|done..].
Qed.

(** ** Builders made by the fragment-adding methods *)

Lemma cssSelectorBuilder_run h0 :
  cssSelectorBuilder h0 = (grown h0 [], Normal (length (objects h0))).
Proof.
  unfold cssSelectorBuilder, mbind, M_bind, array_new.
  rewrite (new_validate_run _ _ []); [reflexivity|]. simpl. apply lookup_snoc.
Qed.

Lemma add_normal k h this s xs h' b' :
  frags h this = Some xs → add k this s h = (h', Normal b') →
  guarded k && has_kind k xs = false
  ∧ ordered (xs ++ [(k, render k s)]) = true
  ∧ h' = grown h (xs ++ [(k, render k s)])
  ∧ b' = length (objects h).
Proof.
  intros Hx. rewrite (add_run _ _ _ _ _ Hx).
  destruct (guarded k && has_kind k xs); [done|].
  destruct (ordered _); [|done]. by intros [= <- <-].
Qed.

Lemma chained_ordered h b :
  chained h b → ∃ xs, frags h b = Some xs ∧ ordered xs = true.
Proof.
  induction 1 as [h0 h b Hroot|k s h b h' b' _ (xs & Hx & Ho) Hadd
                 |h h' b _ (xs & Hx & Ho) Hext].
  - rewrite cssSelectorBuilder_run in Hroot. injection Hroot as <- <-.
    exists []. by rewrite frags_grown.
  - destruct (add_normal _ _ _ _ _ _ _ Hx Hadd) as (_ & Ho' & -> & ->).
    eexists. by rewrite frags_grown.
  - exists xs. eauto using frags_extends.
Qed.

(** C2. Every builder reached from the exported empty builder by the six
    fragment-adding methods alone (no [combine]) has a fragment sequence
    whose kinds are in non-decreasing rank order, for the ranks
    element 0, id 1, class 2, attr 3, pseudoClass 4, pseudoElement 5. *)
Theorem chained_rank_sorted h b :
  chained h b →
  ∃ xs, frags h b = Some xs ∧ rank_sorted xs
        ∧ StronglySorted Z.le (p <$> xs.*1).
Proof.
  intros (xs & Hx & Ho%ordered_sorted)%chained_ordered.
  exists xs. auto using rank_sorted_StronglySorted.
Qed.

Lemma chained_rank_sorted_witness :
  let h := Heap [[]; [(KElement, "a")]; [(KElement, "a"); (KId, "#main")];
                 [(KElement, "a"); (KId, "#main"); (KClass, ".c")]]
                [0; 1; 2; 3] in
  chained h 3 ∧
  ∃ xs, frags h 3 = Some xs ∧ rank_sorted xs
        ∧ StronglySorted Z.le (p <$> xs.*1).
Proof.
  assert (chained (Heap [[]] [0]) 0) as H0
    by (apply (chained_root heap0); reflexivity).
  assert (chained (Heap [[]; [(KElement, "a")]] [0; 1]) 1) as H1
    by (apply (chained_add KElement "a" _ _ _ _ H0); reflexivity).
  assert (chained (Heap [[]; [(KElement, "a")]; [(KElement, "a"); (KId, "#main")]]
                        [0; 1; 2]) 2) as H2
    by (apply (chained_add KId "main" _ _ _ _ H1); reflexivity).
  intros h.
  assert (chained h 3) as H3
    by (apply (chained_add KClass "c" _ _ _ _ H2); reflexivity).
  split; [exact H3|]. exact (chained_rank_sorted h 3 H3).
Defined.

(** C3. The validating constructor scans the array pairwise and throws the
    ordering error exactly when some consecutive pair has the earlier rank
    strictly above the later one; each fragment-adding method that gets to
    construct its builder (its [some] test, where it has one, did not throw)
    therefore fails with the ordering error exactly when the sequence it
    built has such a pair, and no method throws that error otherwise;
    [class('b').id('a')] throws the ordering error. *)
Theorem ordering_error_iff_descent :
  (∀ h a xs, arrays h !! a = Some xs →
     (SB.new a true h).2 = Throw (Error err1) ↔ descent xs)
  ∧ (∀ k h this s xs,
       frags h this = Some xs → guarded k && has_kind k xs = false →
       (add k this s h).2 = Throw (Error err1)
       ↔ descent (xs ++ [(k, render k s)]))
  ∧ (∀ k h this s xs,
       frags h this = Some xs →
       (add k this s h).2 = Throw (Error err1) →
       descent (xs ++ [(k, render k s)]))
  ∧ (b ← cssSelectorBuilder; b1 ← SB.class b "b"; SB.id b1 "a") heap0
    = (Heap [[]; [(KClass, ".b")]; [(KClass, ".b"); (KId, "#a")]] [0; 1; 2],
       Throw (Error err1)).
Proof.
  split; [|split; [|split]].
  - intros h a xs Ha. rewrite (new_validate_run _ _ _ Ha). simpl.
    rewrite <- ordered_descent. by destruct (ordered xs).
  - intros k h this s xs Hx Hg. rewrite (add_run _ _ _ _ _ Hx), Hg. simpl.
    rewrite <- ordered_descent. by destruct (ordered _).
  - intros k h this s xs Hx. rewrite (add_run _ _ _ _ _ Hx).
    destruct (guarded k && has_kind k xs); [done|]. simpl.
    rewrite <- ordered_descent. by destruct (ordered _).
  - reflexivity.
Qed.

Lemma ordering_error_iff_descent_witness :
  let h := Heap [[]; [(KClass, ".b")]] [0; 1] in
  frags h 1 = Some [(KClass, ".b")]
  ∧ guarded KId && has_kind KId [(KClass, ".b")] = false
  ∧ ((add KId 1 "a" h).2 = Throw (Error err1)
     ↔ descent ([(KClass, ".b")] ++ [(KId, render KId "a")])).
Proof.
  intros h. split; [reflexivity|]. split; [reflexivity|].
  exact (proj1 (proj2 ordering_error_iff_descent) KId h 1 "a"
           [(KClass, ".b")] eq_refl eq_refl).
Defined.

(** ** The receiver and the other builders are left as they are *)







(** ** Texts *)

Lemma append_cons a (s t : string) : String a s +:+ t = String a (s +:+ t).
Proof. reflexivity. Qed.

Lemma append_empty_l (s : string) : "" +:+ s = s.
Proof. reflexivity. Qed.

Lemma append_empty_r (s : string) : s +:+ "" = s.
Proof. induction s as [|a s IH]; [done|]. by rewrite append_cons, IH. Qed.

Lemma append_assoc (s1 s2 s3 : string) : (s1 +:+ s2) +:+ s3 = s1 +:+ (s2 +:+ s3).
Proof.
  induction s1 as [|a s1 IH]; [done|]. by rewrite !append_cons, IH.
Qed.

Lemma join_empty (l : list string) :
  String.concat "" l = foldr String.append "" l.
Proof.
  induction l as [|x [|y l] IH]; simpl in *.
  - done.
  - by rewrite append_empty_r.
  - by rewrite IH.
Qed.

Lemma join_text (xs : list (kind * string)) :
  String.concat "" (map snd xs) = text xs.
Proof.
  rewrite join_empty. unfold text.
  induction xs as [|e xs IH]; simpl; [done|]. by rewrite IH.
Qed.

Lemma text_app xs ys : text (xs ++ ys) = text xs +:+ text ys.
Proof.
  induction xs as [|e xs IH]; simpl; [done|].
  by rewrite IH, append_assoc.
Qed.

Lemma text_snoc xs k t : text (xs ++ [(k, t)]) = text xs +:+ t.
Proof.
  rewrite text_app. change (text [(k, t)]) with (t +:+ "").
  by rewrite append_empty_r.
Qed.

Lemma has_kind_elem_of k xs : has_kind k xs = true ↔ ∃ t, (k, t) ∈ xs.
Proof.
  unfold has_kind, kind_eqb. rewrite existsb_exists. split.
  - intros ([k' t] & Hin%list_elem_of_In & Heq%bool_decide_eq_true).
    simpl in Heq. subst k'. eauto.
  - intros [t Hin%list_elem_of_In]. exists (k, t). split; [done|].
    by apply bool_decide_eq_true.
Qed.

(** ** combine *)

(** C1, as the code has it.  For every receiver with fragments [xs], all
    builders [s1] and [s2] with fragments [ls] and [rs] and every token
    [c], [combine] returns a new builder whose fragments are those of the
    receiver, then [ls], then one element-kind fragment with text
    [" c "], then [rs]; nothing is validated, so it never throws on
    builders.  On a receiver without fragments, such as the exported
    [cssSelectorBuilder], that is [ls], the combinator, [rs]; and
    [combine(element('div'), '+', element('span')).stringify()] is
    ['div + span']. *)
Theorem combine_fragments :
  (∀ h this s1 c s2 xs ls rs,
     frags h this = Some xs → frags h s1 = Some ls → frags h s2 = Some rs →
     ∃ h' b,
       SB.combine this s1 c s2 h = (h', Normal b)
       ∧ objects h !! b = None
       ∧ frags h' b = Some (xs ++ ls ++ [(KElement, " " +:+ c +:+ " ")] ++ rs)
       ∧ (xs = [] →
          frags h' b = Some (ls ++ [(KElement, " " +:+ c +:+ " ")] ++ rs)))
  ∧ ((b ← cssSelectorBuilder; l ← SB.element b "div";
      r ← SB.element b "span"; cb ← SB.combine b l "+" r;
      SB.stringify cb) heap0).2 = Normal "div + span".
Proof.
  split; [|reflexivity].
  intros h this s1 c s2 xs ls rs Hx Hl Hr.
  destruct (combine_run h this s1 c s2 xs ls rs Hx Hl Hr) as (h' & Hrun & Hf).
  exists h', (length (objects h)). repeat split; [done| |done|].
  - by apply lookup_ge_None.
  - intros ->. by rewrite Hf.
Qed.

Lemma combine_fragments_witness :
  let h := Heap [[]; [(KElement, "div")]; [(KElement, "span")]] [0; 1; 2] in
  frags h 0 = Some [] ∧ frags h 1 = Some [(KElement, "div")]
  ∧ frags h 2 = Some [(KElement, "span")]
  ∧ ∃ h' b,
      SB.combine 0 1 "+" 2 h = (h', Normal b)
      ∧ objects h !! b = None
      ∧ frags h' b = Some ([] ++ [(KElement, "div")]
                            ++ [(KElement, " " +:+ "+" +:+ " ")]
                            ++ [(KElement, "span")])
      ∧ ((@nil (kind * string)) = [] →
         frags h' b = Some ([(KElement, "div")]
                             ++ [(KElement, " " +:+ "+" +:+ " ")]
                             ++ [(KElement, "span")])).
Proof.
  intros h. repeat (split; [reflexivity|]).
  exact (proj1 combine_fragments h 0 1 "+" 2 [] [(KElement, "div")]
           [(KElement, "span")] eq_refl eq_refl eq_refl).
Defined.

(** C1 as stated fails on a receiver that has fragments of its own: called
    on [element('x')], [combine(element('div'), '+', element('span'))]
    yields the four fragments of ['xdiv + span'], not the three of
    ['div + span']. *)
Lemma combine_keeps_receiver_fragments :
  let h := Heap [[]; [(KElement, "x")]; [(KElement, "div")]; [(KElement, "span")]]
                [0; 1; 2; 3] in
  (b ← cssSelectorBuilder; x ← SB.element b "x"; l ← SB.element b "div";
   SB.element b "span") heap0 = (h, Normal 3)
  ∧ frags h 1 = Some [(KElement, "x")]
  ∧ frags h 2 = Some [(KElement, "div")]
  ∧ frags h 3 = Some [(KElement, "span")]
  ∧ ∃ h' b,
      SB.combine 1 2 "+" 3 h = (h', Normal b)
      ∧ frags h' b = Some [(KElement, "x"); (KElement, "div");
                           (KElement, " + "); (KElement, "span")]
      ∧ frags h' b ≠ Some ([(KElement, "div")] ++ [(KElement, " + ")]
                            ++ [(KElement, "span")])
      ∧ SB.stringify b h' = (h', Normal "xdiv + span").
Proof.
  intros h. repeat (split; [reflexivity|]).
  eexists _, _. split; [reflexivity|]. split; [reflexivity|].
  split; [discriminate|reflexivity].
Qed.

(** ** The duplicate test *)

Lemma add_rejects_duplicate k :
  guarded k = true → rejects_duplicate (add k) k.
Proof.
  intros Hg h this s xs Hx. rewrite (add_run _ _ _ _ _ Hx), Hg. simpl.
  rewrite <- has_kind_elem_of.
  destruct (has_kind k xs); simpl.
  - done.
  - split; [|by destruct (ordered _)].
    split; [by destruct (ordered _)|done].
Qed.

(** C4. On every builder, [element], [id] and [pseudoElement] throw the
    duplicate error exactly when the receiver already holds a fragment of
    that kind, and they throw it with the store as it was: no array and no
    builder has been made, and the receiver is the builder it was.
    [id('a').id('b')] throws, and the builder of [id('a')] then still
    serves: [.class('c').stringify()] on it gives ['#a.c']. *)
Theorem duplicate_error_iff_present :
  rejects_duplicate SB.element KElement
  ∧ rejects_duplicate SB.id KId
  ∧ rejects_duplicate SB.pseudoElement KPseudoElement
  ∧ (let h1 := Heap [[]; [(KId, "#a")]] [0; 1] in
     (b ← cssSelectorBuilder; SB.id b "a") heap0 = (h1, Normal 1)
     ∧ SB.id 1 "b" h1 = (h1, Throw (Error err2))
     ∧ ((b2 ← SB.class 1 "c"; SB.stringify b2) h1).2 = Normal "#a.c").
Proof.
  split; [exact (add_rejects_duplicate KElement eq_refl)|].
  split; [exact (add_rejects_duplicate KId eq_refl)|].
  split; [exact (add_rejects_duplicate KPseudoElement eq_refl)|].
  by repeat split.
Qed.

Lemma duplicate_error_iff_present_witness :
  let h := Heap [[]; [(KId, "#a")]] [0; 1] in
  frags h 1 = Some [(KId, "#a")]
  ∧ ((SB.id 1 "b" h).2 = Throw (Error err2) ↔ ∃ t, (KId, t) ∈ [(KId, "#a")])
  ∧ ((SB.id 1 "b" h).2 = Throw (Error err2) → (SB.id 1 "b" h).1 = h).
Proof.
  intros h. split; [reflexivity|].
  exact (proj1 (proj2 duplicate_error_iff_present) h 1 "b" [(KId, "#a")] eq_refl).
Defined.

(** ** stringify *)

Lemma add_appends k : appends (add k) k (render k).
Proof.
  intros h this s xs h' b' Hx Hadd.
  destruct (add_normal _ _ _ _ _ _ _ Hx Hadd) as (_ & _ & -> & ->).
  pose proof (frags_grown h (xs ++ [(k, render k s)])) as Hf.
  split; [done|].
  by rewrite (stringify_run _ _ _ Hf), join_text, text_snoc.
Qed.

Lemma add_first k h this v :
  frags h this = Some [] →
  ((b ← add k this v; SB.stringify b) h).2 = Normal (render k v).
Proof.
  intros Hx. unfold mbind at 1, M_bind at 1.
  rewrite (add_run _ _ _ _ _ Hx).
  replace (guarded k && has_kind k []) with false by (by destruct k).
  simpl app. cbn [ordered].
  pose proof (frags_grown h [(k, render k v)]) as Hf.
  rewrite (stringify_run _ _ _ Hf), join_text. simpl.
  by rewrite append_empty_r.
Qed.

(** C5. [stringify] returns the texts of the fragments, in sequence order
    and with nothing between or around them, and leaves the store as it
    is, so that a second call returns the same string; the six methods store
    [v], ['#' + v], ['.' + v], ['[' + v + ']'], [':' + v] and ['::' + v],
    which is what [stringify] gives for a builder of one fragment;
    [id('main').class('container').class('editable').stringify()] is
    ['#main.container.editable']. *)
Theorem stringify_concatenates :
  (∀ h this xs, frags h this = Some xs →
     SB.stringify this h = (h, Normal (text xs))
     ∧ (_ ← SB.stringify this; SB.stringify this) h = SB.stringify this h)
  ∧ appends SB.element KElement (λ v, v)
  ∧ appends SB.id KId (λ v, "#" +:+ v)
  ∧ appends SB.class KClass (λ v, "." +:+ v)
  ∧ appends SB.attr KAttr (λ v, "[" +:+ v +:+ "]")
  ∧ appends SB.pseudoClass KPseudoClass (λ v, ":" +:+ v)
  ∧ appends SB.pseudoElement KPseudoElement (λ v, "::" +:+ v)
  ∧ (∀ h this v, frags h this = Some [] →
       ((b ← SB.element this v; SB.stringify b) h).2 = Normal v
       ∧ ((b ← SB.id this v; SB.stringify b) h).2 = Normal ("#" +:+ v)
       ∧ ((b ← SB.class this v; SB.stringify b) h).2 = Normal ("." +:+ v)
       ∧ ((b ← SB.attr this v; SB.stringify b) h).2
         = Normal ("[" +:+ v +:+ "]")
       ∧ ((b ← SB.pseudoClass this v; SB.stringify b) h).2
         = Normal (":" +:+ v)
       ∧ ((b ← SB.pseudoElement this v; SB.stringify b) h).2
         = Normal ("::" +:+ v))
  ∧ ((b ← cssSelectorBuilder; b1 ← SB.id b "main";
      b2 ← SB.class b1 "container"; b3 ← SB.class b2 "editable";
      SB.stringify b3) heap0).2 = Normal "#main.container.editable".
Proof.
  split.
  { intros h this xs Hx. pose proof (stringify_run _ _ _ Hx) as Hs.
    rewrite join_text in Hs. split; [done|].
    unfold mbind at 1, M_bind at 1. by rewrite Hs. }
  split; [exact (add_appends KElement)|].
  split; [exact (add_appends KId)|].
  split; [exact (add_appends KClass)|].
  split; [exact (add_appends KAttr)|].
  split; [exact (add_appends KPseudoClass)|].
  split; [exact (add_appends KPseudoElement)|].
  split; [|reflexivity].
  intros h this v Hx.
  repeat split;
    [exact (add_first KElement h this v Hx)|exact (add_first KId h this v Hx)
    |exact (add_first KClass h this v Hx)|exact (add_first KAttr h this v Hx)
    |exact (add_first KPseudoClass h this v Hx)
    |exact (add_first KPseudoElement h this v Hx)].
Qed.

Lemma stringify_concatenates_witness :
  let h := Heap [[]; [(KId, "#main")]; [(KId, "#main"); (KClass, ".container")]]
                [0; 1; 2] in
  frags h 2 = Some [(KId, "#main"); (KClass, ".container")]
  ∧ SB.stringify 2 h = (h, Normal (text [(KId, "#main"); (KClass, ".container")]))
  ∧ (_ ← SB.stringify 2; SB.stringify 2) h = SB.stringify 2 h.
Proof.
  intros h. split; [reflexivity|].
  exact (proj1 stringify_concatenates h 2
           [(KId, "#main"); (KClass, ".container")] eq_refl).
Defined.

(** ** Frame *)



(** ** After combine *)

(** C7. A fragment-adding method called on a builder made by [combine]
    runs the validating constructor on the whole combined sequence with the
    new fragment at its end: unless its own duplicate test throws first, it
    throws the ordering error exactly when that whole sequence has a
    consecutive pair out of rank order.
    [combine(element('a'), '+', pseudoClass('x'))] is accepted and
    [.class('y')] on it throws the ordering error. *)
Theorem add_after_combine_validates_all :
  (∀ h this s1 c s2 xs ls rs h' cb,
     frags h this = Some xs → frags h s1 = Some ls → frags h s2 = Some rs →
     SB.combine this s1 c s2 h = (h', Normal cb) →
     let cs := xs ++ ls ++ [(KElement, " " +:+ c +:+ " ")] ++ rs in
     frags h' cb = Some cs
     ∧ ∀ k s,
         (add k cb s h').2 = Throw (Error err1)
         ↔ guarded k && has_kind k cs = false
           ∧ descent (cs ++ [(k, render k s)]))
  ∧ (let h := Heap [[]; [(KElement, "a")]; [(KPseudoClass, ":x")]] [0; 1; 2] in
     (b ← cssSelectorBuilder; l ← SB.element b "a"; SB.pseudoClass b "x") heap0
       = (h, Normal 2)
     ∧ (SB.combine 0 1 "+" 2 h).2 = Normal 3
     ∧ ((cb ← SB.combine 0 1 "+" 2; SB.class cb "y") h).2 = Throw (Error err1)).
Proof.
  split; [|by repeat split].
  intros h this s1 c s2 xs ls rs h' cb Hx Hl Hr Hc cs.
  destruct (combine_run h this s1 c s2 xs ls rs Hx Hl Hr) as (h'' & Hrun & Hf).
  rewrite Hrun in Hc. injection Hc as <- <-.
  split; [done|]. intros k s.
  rewrite (add_run _ _ _ _ _ Hf). fold cs.
  destruct (guarded k && has_kind k cs); simpl.
  - split; [done|]. by intros [? _].
  - rewrite <- ordered_descent. destruct (ordered _); split; try done.
    by intros [_ ?].
Qed.

Lemma add_after_combine_validates_all_witness :
  let h := Heap [[]; [(KElement, "a")]; [(KPseudoClass, ":x")]] [0; 1; 2] in
  let h' := Heap [[]; [(KElement, "a")]; [(KPseudoClass, ":x")];
                  [(KElement, "a")]; [(KElement, "a"); (KElement, " + ")];
                  [(KElement, "a"); (KElement, " + "); (KPseudoClass, ":x")]]
                 [0; 1; 2; 5] in
  let cs := [] ++ [(KElement, "a")] ++ [(KElement, " " +:+ "+" +:+ " ")]
            ++ [(KPseudoClass, ":x")] in
  frags h 0 = Some [] ∧ frags h 1 = Some [(KElement, "a")]
  ∧ frags h 2 = Some [(KPseudoClass, ":x")]
  ∧ SB.combine 0 1 "+" 2 h = (h', Normal 3)
  ∧ frags h' 3 = Some cs
  ∧ ∀ k s,
      (add k 3 s h').2 = Throw (Error err1)
      ↔ guarded k && has_kind k cs = false ∧ descent (cs ++ [(k, render k s)]).
Proof.
  intros h h' cs. do 4 (split; [reflexivity|]).
  exact (proj1 add_after_combine_validates_all h 0 1 "+" 2 []
           [(KElement, "a")] [(KPseudoClass, ":x")] h' 3
           eq_refl eq_refl eq_refl eq_refl).
Defined.

(** C8. Every builder made by [combine] holds a fragment of kind element,
    the combinator, so [element] on it throws the duplicate error, at once
    and at any later time, also when neither operand held an element
    fragment, as in [combine(id('a'), '>', class('b')).element('x')]. *)
Theorem element_after_combine_rejected :
  (∀ h this s1 c s2 xs ls rs,
     frags h this = Some xs → frags h s1 = Some ls → frags h s2 = Some rs →
     ∃ h' cb cs,
       SB.combine this s1 c s2 h = (h', Normal cb)
       ∧ frags h' cb = Some cs
       ∧ (KElement, " " +:+ c +:+ " ") ∈ cs
       ∧ ∀ h'' v, extends h' h'' →
           SB.element cb v h'' = (h'', Throw (Error err2)))
  ∧ (let h := Heap [[]; [(KId, "#a")]; [(KClass, ".b")]] [0; 1; 2] in
     (b ← cssSelectorBuilder; l ← SB.id b "a"; SB.class b "b") heap0
       = (h, Normal 2)
     ∧ (SB.combine 0 1 ">" 2 h).2 = Normal 3
     ∧ ((cb ← SB.combine 0 1 ">" 2; SB.element cb "x") h).2
       = Throw (Error err2)).
Proof.
  split; [|by repeat split].
  intros h this s1 c s2 xs ls rs Hx Hl Hr.
  destruct (combine_run h this s1 c s2 xs ls rs Hx Hl Hr) as (h' & Hrun & Hf).
  eexists h', _, _. split; [done|]. split; [done|].
  assert ((KElement, " " +:+ c +:+ " ")
            ∈ xs ++ ls ++ [(KElement, " " +:+ c +:+ " ")] ++ rs) as Hin
    by (rewrite !elem_of_app, list_elem_of_singleton; auto).
  split; [done|]. intros h'' v Hext.
  pose proof (frags_extends _ _ _ _ Hext Hf) as Hf'.
  change (SB.element ?b ?v) with (add KElement b v).
  rewrite (add_run _ _ _ _ _ Hf').
  assert (has_kind KElement
            (xs ++ ls ++ [(KElement, " " +:+ c +:+ " ")] ++ rs) = true) as ->
    by (apply has_kind_elem_of; eauto).
  done.
Qed.

Lemma element_after_combine_rejected_witness :
  let h := Heap [[]; [(KId, "#a")]; [(KClass, ".b")]] [0; 1; 2] in
  frags h 0 = Some [] ∧ frags h 1 = Some [(KId, "#a")]
  ∧ frags h 2 = Some [(KClass, ".b")]
  ∧ ∃ h' cb cs,
      SB.combine 0 1 ">" 2 h = (h', Normal cb)
      ∧ frags h' cb = Some cs
      ∧ (KElement, " " +:+ ">" +:+ " ") ∈ cs
      ∧ ∀ h'' v, extends h' h'' →
          SB.element cb v h'' = (h'', Throw (Error err2)).
Proof.
  intros h. repeat (split; [reflexivity|]).
  exact (proj1 element_after_combine_rejected h 0 1 ">" 2 []
           [(KId, "#a")] [(KClass, ".b")] eq_refl eq_refl eq_refl).
Defined.

(** ** Rectangle *)

(** C9. For all numbers [w] and [h], [new Rectangle(w, h)] has width [w],
    height [h], and [getArea()] returns the product of the two fields as
    they are when it is called: after an assignment to [width] (or to
    [height]) the next call returns the product with the new value.
    [new Rectangle(10, 20).getArea()] is [200]. *)
Theorem rectangle_area :
  (∀ w h : float,
     width (Rectangle w h) = w
     ∧ height (Rectangle w h) = h
     ∧ getArea (Rectangle w h) = (w * h)%float)
  ∧ (∀ (r : rectangle) (v : float),
       getArea r = (width r * height r)%float
       ∧ getArea (set_width v r) = (v * height r)%float
       ∧ getArea (set_height v r) = (width r * v)%float
       ∧ getArea (set_width (width r) (set_width v r)) = getArea r)
  ∧ getArea (Rectangle 10 20) = 200%float
  ∧ getArea (set_width 5 (Rectangle 10 20)) = 100%float.
Proof.
  split; [by intros w h|]. split; [|by split].
  intros [w h] v. by repeat split.
Qed.


(** * JSON: numbers, texts and the round trip of a rectangle *)

(** ** Rounding a number that is a binary64 number *)

Lemma iter_pos_iter {A} (f : A → A) n : ∀ x, iter_pos f n x = Pos.iter f x n.
Proof.
  induction n as [n IH|n IH|]; intros x; simpl.
  - by rewrite !IH, !Pos.iter_swap.
  - by rewrite !IH.
  - done.
Qed.

Lemma shl_pos m k : Z.pos (Pos.iter xO m k) = (Z.pos m * 2 ^ Z.pos k)%Z.
Proof.
  induction k as [|k IH] using Pos.peano_ind.
  - simpl. lia.
  - rewrite Pos.iter_succ, Pos2Z.inj_xO, IH, Pos2Z.inj_succ, Z.pow_succ_r; lia.
Qed.

Lemma digits2_shl m k :
  digits2_pos (Pos.iter xO m k) = (digits2_pos m + k)%positive.
Proof.
  induction k as [|k IH] using Pos.peano_ind.
  - simpl. lia.
  - rewrite Pos.iter_succ. simpl. rewrite IH. lia.
Qed.

Lemma shr_shl m k :
  Pos.iter shr_1
    {| shr_m := Z.pos (Pos.iter xO m k); shr_r := false; shr_s := false |} k
  = {| shr_m := Z.pos m; shr_r := false; shr_s := false |}.
Proof.
  induction k as [|k IH] using Pos.peano_ind.
  - done.
  - rewrite Pos.iter_succ_r, Pos.iter_succ. simpl. apply IH.
Qed.

Lemma bounded_inv m e :
  bounded prec emax m e = true →
  fexp prec emax (Z.pos (digits2_pos m) + e) = e ∧ (e <=? emax - prec)%Z = true.
Proof.
  unfold bounded, canonical_mantissa.
  intros [H1%Z.eqb_eq H2]%andb_true_iff. done.
Qed.

Lemma binary_round_aux_exact m e k :
  bounded prec emax m e = true → (0 ≤ k)%Z →
  binary_round_aux prec emax false (Z.pos m * 2 ^ k) (e - k) loc_Exact
  = S754_finite false m e.
Proof.
  intros [Hf Hle]%bounded_inv Hk.
  assert (shr_fexp prec emax (Z.pos m * 2 ^ k) (e - k) loc_Exact
          = ({| shr_m := Z.pos m; shr_r := false; shr_s := false |}, e))
    as Hshift.
  { destruct k as [|k|k]; [| |lia].
    - rewrite Z.pow_0_r, Z.mul_1_r, Z.sub_0_r. unfold shr_fexp.
      cbn [Zdigits2]. rewrite Hf, Z.sub_diag. done.
    - rewrite <- shl_pos. unfold shr_fexp. cbn [Zdigits2].
      rewrite digits2_shl.
      replace (Z.pos (digits2_pos m + k) + (e - Z.pos k))%Z
        with (Z.pos (digits2_pos m) + e)%Z by lia.
      rewrite Hf.
      replace (e - (e - Z.pos k))%Z with (Z.pos k) by lia.
      cbn [shr shr_record_of_loc]. rewrite iter_pos_iter, shr_shl.
      f_equal. lia. }
  unfold binary_round_aux. rewrite Hshift.
  cbn [shr_m loc_of_shr_record round_nearest_even].
  unfold shr_fexp. cbn [Zdigits2]. rewrite Hf, Z.sub_diag.
  cbn [shr shr_record_of_loc shr_m]. by rewrite Hle.
Qed.

Lemma nearest_exact m e a q :
  bounded prec emax m e = true → (0 < q)%Z → (0 ≤ e + 1200)%Z →
  (a * 2 ^ 1200 = Z.pos m * 2 ^ (e + 1200) * q)%Z →
  nearest a q = S754_finite false m e.
Proof.
  intros Hb Hq He Heq. unfold nearest.
  pose proof (Z.div_eucl_eq (a * 2 ^ 1200) q ltac:(lia)) as Hdiv.
  pose proof (Z.mod_pos_bound (a * 2 ^ 1200) q Hq) as Hmod.
  unfold Z.modulo in Hmod.
  destruct (Z.div_eucl (a * 2 ^ 1200) q) as [d r].
  assert (r = 0 ∧ d = Z.pos m * 2 ^ (e + 1200))%Z as [-> ->].
  { rewrite Heq in Hdiv.
    assert (r = q * (Z.pos m * 2 ^ (e + 1200) - d))%Z as Hr by lia.
    assert (Z.pos m * 2 ^ (e + 1200) - d = 0)%Z; [nia|]. split; lia. }
  simpl Z.eqb. cbv iota.
  replace (-1200)%Z with (e - (e + 1200))%Z by lia.
  by apply binary_round_aux_exact.
Qed.

Lemma emin_le m e : bounded prec emax m e = true → (-1074 ≤ e)%Z.
Proof.
  intros [Hf _]%bounded_inv. unfold fexp, emin, prec, emax in Hf. lia.
Qed.

(** The exact expansion of a binary64 number reads back as that number. *)
Lemma round_exact_decimal m e :
  bounded prec emax m e = true →
  let '(s, e10) := exact_decimal m e in
  round_decimal (Z.pos s) e10 = S754_finite false m e.
Proof.
  intros Hb. pose proof (emin_le _ _ Hb) as He.
  unfold exact_decimal, round_decimal.
  destruct (Z.leb_spec 0 e) as [Hpos|Hneg].
  - simpl Z.leb. cbv iota.
    assert (0 < 2 ^ e)%Z by (by apply Z.pow_pos_nonneg).
    rewrite Z2Pos.id by lia.
    apply nearest_exact; [done|lia|lia|].
    rewrite Z.pow_add_r by lia. simpl (10 ^ 0)%Z. lia.
  - destruct (Z.leb_spec 0 e) as [?|_]; [lia|].
    assert (0 < 5 ^ (- e))%Z by (apply Z.pow_pos_nonneg; lia).
    assert (0 < 10 ^ (- e))%Z by (apply Z.pow_pos_nonneg; lia).
    rewrite Z2Pos.id by lia.
    apply nearest_exact; [done|lia|lia|].
    replace 1200%Z with ((e + 1200) + (- e))%Z at 1 by lia.
    rewrite Z.pow_add_r by lia.
    replace 10%Z with (5 * 2)%Z by done. rewrite Z.pow_mul_l. lia.
Qed.

Lemma same_float_eq sf m e :
  same_float sf m e = true → sf = S754_finite false m e.
Proof.
  destruct sf as [| | |[] m' e']; try done. simpl.
  by intros [->%Pos.eqb_eq ->%Z.eqb_eq]%andb_true_iff.
Qed.

Lemma shortest_from_reads_back m e p q n fuel : ∀ k,
  bounded prec emax m e = true →
  let '(s, e10) := shortest_from fuel k m e p q n in
  round_decimal (Z.pos s) e10 = S754_finite false m e.
Proof.
  induction fuel as [|fuel IH]; intros k Hb; cbn [shortest_from].
  - by apply round_exact_decimal.
  - destruct (find _ _) as [[s e10]|] eqn:Hfind.
    + apply find_some in Hfind as [_ Hsame]. by apply same_float_eq.
    + by apply IH.
Qed.

(** The digits chosen for a binary64 number read back as that number. *)
Lemma shortest_reads_back m e :
  bounded prec emax m e = true →
  let '(s, e10) := shortest m e in
  round_decimal (Z.pos s) e10 = S754_finite false m e.
Proof.
  intros Hb. unfold shortest.
  destruct (if (0 <=? e)%Z then _ else _) as [p q].
  by apply shortest_from_reads_back.
Qed.

(** ** Decimal digits *)

Lemma uint_units_digits d : Forall (λ c, is_digit c = true) (uint_units d).
Proof. induction d; simpl; constructor; done. Qed.

Lemma decimal_digits s : Forall (λ c, is_digit c = true) (decimal s).
Proof. apply uint_units_digits. Qed.

Lemma scan_digits_app ds rest :
  Forall (λ c, is_digit c = true) ds → negb (starts_digit rest) = true →
  scan_digits (ds ++ rest) = (ds, rest).
Proof.
  intros Hds Hrest. induction Hds as [|c ds Hc _ IH]; simpl.
  - destruct rest as [|c r]; [done|]. simpl in *.
    by apply negb_true_iff in Hrest as ->.
  - by rewrite Hc, IH.
Qed.

Lemma dv_acc ds : ∀ acc,
  dv acc ds = (acc * 10 ^ Z.of_nat (length ds) + dv 0 ds)%Z.
Proof.
  unfold dv. induction ds as [|c ds IH]; intros acc; simpl fold_left.
  - simpl. lia.
  - rewrite IH, (IH (10 * 0 + _)%Z).
    rewrite length_cons, Nat2Z.inj_succ, Z.pow_succ_r by lia. lia.
Qed.

Lemma digits_value_app a b :
  digits_value (a ++ b)
  = (digits_value a * 10 ^ Z.of_nat (length b) + digits_value b)%Z.
Proof.
  unfold digits_value. rewrite fold_left_app. apply (dv_acc b).
Qed.

Lemma digits_value_zeros n : digits_value (replicate n 48%N) = 0%Z.
Proof.
  induction n as [|n IH]; [done|].
  change (replicate (S n) 48%N) with ([48%N] ++ replicate n 48%N).
  rewrite digits_value_app, IH. done.
Qed.

Lemma dv_uint d : ∀ acc,
  dv (Z.pos acc) (uint_units d) = Z.pos (Pos.of_uint_acc d acc).
Proof.
  unfold dv. induction d; intros acc; simpl; rewrite <- ?IHd; try done;
    f_equal; lia.
Qed.

Lemma digits_value_uint d :
  digits_value (uint_units d) = Z.of_N (Pos.of_uint d).
Proof.
  unfold digits_value.
  induction d; simpl; try done;
    match goal with
    | |- _ = Z.pos (Pos.of_uint_acc _ ?a) => exact (dv_uint d a)
    end.
Qed.

Lemma digits_value_decimal s : digits_value (decimal s) = Z.pos s.
Proof.
  unfold decimal. by rewrite digits_value_uint, DecimalPos.Unsigned.of_to.
Qed.

Lemma unorm_head d d' : Decimal.unorm d = Decimal.D0 d' → d' = Decimal.Nil.
Proof.
  induction d; simpl; try done. by intros [= <-].
Qed.

(** The first digit of a positive integer is not [0]. *)
Lemma decimal_head s :
  ∃ c r, decimal s = c :: r ∧ is_digit c = true ∧ c ≠ 48%N.
Proof.
  unfold decimal.
  assert (Decimal.unorm (Pos.to_uint s) = Pos.to_uint s) as Hn.
  { rewrite <- (DecimalPos.Unsigned.to_of (Pos.to_uint s)).
    by rewrite DecimalPos.Unsigned.of_to. }
  pose proof (DecimalPos.Unsigned.of_to s) as Hof.
  destruct (Pos.to_uint s) as [|d| | | | | | | | |]; simpl; try done;
    try (by eexists _, _).
  apply unorm_head in Hn as ->. done.
Qed.

Lemma decimal_length s : (1 ≤ Z.of_nat (length (decimal s)))%Z.
Proof.
  destruct (decimal_head s) as (c & r & -> & _). rewrite length_cons. lia.
Qed.

(** ** Reading a number *)

Lemma digit_cases c :
  is_digit c = true →
  (c =? 45)%N = false ∧ (c =? 46)%N = false ∧ (c =? 101)%N = false
  ∧ (c =? 69)%N = false ∧ (c =? 43)%N = false.
Proof.
  unfold is_digit. intros [H1 H2]%andb_true_iff.
  apply N.leb_le in H1, H2.
  repeat split; apply N.eqb_neq; lia.
Qed.

Lemma number_end_digit rest :
  number_end rest = true → negb (starts_digit rest) = true.
Proof.
  destruct rest as [|c r]; [done|]. simpl.
  intros H%negb_true_iff. apply negb_true_iff.
  by destruct (is_digit c).
Qed.

Lemma number_end_starts rest :
  number_end rest = true →
  starts 46 rest = false ∧ starts 101 rest = false ∧ starts 69 rest = false.
Proof.
  destruct rest as [|c r]; [done|]. simpl.
  intros H%negb_true_iff.
  destruct (is_digit c), (c =? 46)%N, (c =? 101)%N, (c =? 69)%N; done.
Qed.

Lemma parse_fraction_some frac rest :
  Forall (λ c, is_digit c = true) frac → is_nil frac = false →
  negb (starts_digit rest) = true →
  parse_fraction (46%N :: frac ++ rest) = Some (frac, rest).
Proof.
  intros Hd Hn Hr. unfold parse_fraction. simpl.
  rewrite scan_digits_app by done. by rewrite Hn.
Qed.

Lemma parse_exponent_some (minus : bool) ed rest :
  Forall (λ c, is_digit c = true) ed → is_nil ed = false →
  negb (starts_digit rest) = true →
  parse_exponent (101%N :: (if minus then 45%N else 43%N) :: ed ++ rest)
  = Some (exponent_value (Some (minus, ed)), rest).
Proof.
  intros Hd Hn Hr. unfold parse_exponent.
  destruct minus; simpl; rewrite scan_digits_app by done; by rewrite Hn.
Qed.

Lemma parse_number_pieces neg int frac ex rest :
  Forall (λ c, is_digit c = true) int → is_nil int = false →
  leading_zero int = false →
  Forall (λ c, is_digit c = true) frac →
  match ex with
  | Some (_, ed) => Forall (λ c, is_digit c = true) ed ∧ is_nil ed = false
  | None => True
  end →
  number_end rest = true →
  parse_number (number_text neg int frac ex ++ rest)
  = Some (let x := decimal_float (digits_value (int ++ frac))
                     (exponent_value ex - Z.of_nat (length frac)) in
          if neg then (- x)%float else x, rest).
Proof.
  intros Hint Hnil Hlz Hfrac Hex Hrest.
  pose proof (number_end_digit _ Hrest) as Hrd.
  destruct (number_end_starts _ Hrest) as (Hr1 & Hr2 & Hr3).
  set (E := match ex with
            | Some (minus, ed) => 101%N :: (if minus then 45%N else 43%N) :: ed
            | None => []
            end).
  set (F := if is_nil frac then [] else 46%N :: frac).
  assert (parse_exponent (E ++ rest) = Some (exponent_value ex, rest)) as HE.
  { subst E. destruct ex as [[minus ed]|].
    - destruct Hex as [Hed Hne]. simpl app.
      by apply parse_exponent_some.
    - simpl. unfold parse_exponent. by rewrite Hr2, Hr3. }
  assert (negb (starts_digit (E ++ rest)) = true
          ∧ starts 46 (E ++ rest) = false) as [HEd HE46].
  { subst E. destruct ex as [[minus ed]|]; simpl; done. }
  assert (parse_fraction (F ++ E ++ rest) = Some (frac, E ++ rest)) as HF.
  { subst F. destruct frac as [|c frac'] eqn:Hf.
    - simpl. unfold parse_fraction. by rewrite HE46.
    - rewrite <- Hf in *. simpl is_nil. rewrite Hf at 1. simpl is_nil.
      cbv iota. simpl app. apply parse_fraction_some; try done.
      by rewrite Hf. }
  assert (negb (starts_digit (F ++ E ++ rest)) = true) as HFd.
  { subst F. destruct frac; simpl; done. }
  assert (scan_digits (int ++ F ++ E ++ rest) = (int, F ++ E ++ rest)) as HI
    by by apply scan_digits_app.
  assert (starts 45 (int ++ F ++ E ++ rest) = false) as H45.
  { destruct Hint as [|c int' Hc _]; [done|]. simpl.
    by destruct (digit_cases c Hc) as (-> & _). }
  unfold number_text. fold E F. unfold parse_number.
  destruct neg.
  - simpl app. simpl starts. cbv iota. simpl tail.
    rewrite <- !app_assoc, HI, Hnil, Hlz. simpl orb. cbv iota.
    rewrite HF. simpl. rewrite HE. done.
  - simpl app. rewrite <- !app_assoc, H45, HI, Hnil, Hlz. simpl orb. cbv iota.
    rewrite HF. simpl. rewrite HE. done.
Qed.

Lemma decimal_float_shift s j :
  (0 ≤ j)%Z → decimal_float (s * 10 ^ j) 0 = decimal_float s j.
Proof.
  intros Hj. unfold decimal_float, round_decimal. simpl (0 <=? 0)%Z.
  apply Z.leb_le in Hj as ->. cbv iota. by rewrite Z.pow_0_r, Z.mul_1_r.
Qed.

Lemma leading_zero_head c r :
  c ≠ 48%N → leading_zero (c :: r) = false.
Proof.
  intros Hc. destruct r; [done|]. simpl. by apply N.eqb_neq.
Qed.

Lemma number_text_sign neg int frac ex :
  number_text neg int frac ex
  = (if neg then [45%N] else []) ++ number_text false int frac ex.
Proof. by destruct neg. Qed.

Lemma Forall_digit_zeros n : Forall (λ c, is_digit c = true) (replicate n 48%N).
Proof. apply Forall_replicate. done. Qed.

Lemma format_decimal_pieces s e10 :
  ∃ int frac ex,
    format_decimal s e10 = number_text false int frac ex
    ∧ Forall (λ c, is_digit c = true) int ∧ is_nil int = false
    ∧ leading_zero int = false
    ∧ Forall (λ c, is_digit c = true) frac
    ∧ match ex with
      | Some (_, ed) => Forall (λ c, is_digit c = true) ed ∧ is_nil ed = false
      | None => True
      end
    ∧ decimal_float (digits_value (int ++ frac))
        (exponent_value ex - Z.of_nat (length frac))
      = decimal_float (Z.pos s) e10.
Proof.
  pose proof (decimal_digits s) as Hds.
  pose proof (digits_value_decimal s) as Hv.
  destruct (decimal_head s) as (c & r & Hdec & Hc & Hc0).
  unfold format_decimal. 
  set (ds := decimal s) in *. set (k := Z.of_nat (length ds)).
  assert (1 ≤ k)%Z as Hk by (subst k; rewrite Hdec, length_cons; lia).
  cbv zeta. set (n := (k + e10)%Z).
  destruct ((k <=? n)%Z && (n <=? 21)%Z) eqn:Ha.
  { apply andb_true_iff in Ha as [Ha1%Z.leb_le Ha2%Z.leb_le].
    exists (ds ++ replicate (Z.to_nat (n - k)) 48%N), [], None.
    unfold number_text. simpl. rewrite !(right_id_L [] (++)).
    split; [done|]. split; [apply Forall_app; split; [done|apply Forall_digit_zeros]|].
    split; [by rewrite Hdec|]. split; [rewrite Hdec; by apply leading_zero_head|].
    split; [done|]. split; [done|].
    rewrite digits_value_app, digits_value_zeros, Hv, length_replicate.
    rewrite Z.add_0_r, Z2Nat.id by lia. replace (n - k)%Z with e10 by lia.
    apply decimal_float_shift. lia. }
  destruct ((0 <? n)%Z && (n <=? 21)%Z) eqn:Hb.
  { apply andb_true_iff in Hb as [Hb1%Z.ltb_lt Hb2%Z.leb_le].
    apply andb_false_iff in Ha as [Ha%Z.leb_gt|Ha%Z.leb_gt]; [|lia].
    exists (take (Z.to_nat n) ds), (drop (Z.to_nat n) ds), None.
    assert (drop (Z.to_nat n) ds ≠ []) as Hdrop.
    { intros Hd%(f_equal length). rewrite length_drop in Hd. simpl in Hd. lia. }
    assert (∃ t, take (Z.to_nat n) ds = c :: t) as [t Ht].
    { rewrite Hdec. destruct (Z.to_nat n) eqn:Hn; [lia|]. simpl. by eexists. }
    assert (is_nil (drop (Z.to_nat n) ds) = false) as Hdn
      by by destruct (drop _ _).
    unfold number_text. rewrite Hdn. simpl.
    rewrite (right_id_L [] (++)).
    split; [done|]. split; [by apply Forall_take|].
    split; [by rewrite Ht|]. split; [rewrite Ht; by apply leading_zero_head|].
    split; [by apply Forall_drop|]. split; [done|].
    rewrite take_drop, Hv, length_drop. f_equal. lia. }
  destruct ((-6 <? n)%Z && (n <=? 0)%Z) eqn:Hc'.
  { apply andb_true_iff in Hc' as [Hc1%Z.ltb_lt Hc2%Z.leb_le].
    exists [48%N], (replicate (Z.to_nat (- n)) 48%N ++ ds), None.
    unfold number_text.
    assert (is_nil (replicate (Z.to_nat (- n)) 48%N ++ ds) = false) as ->.
    { rewrite Hdec. by destruct (replicate _ _). }
    simpl. rewrite (right_id_L [] (++)).
    split; [done|]. split; [by repeat constructor|].
    split; [done|]. split; [done|].
    split; [apply Forall_app; split; [apply Forall_digit_zeros|done]|].
    split; [done|].
    change (48%N :: ?l) with ([48%N] ++ l).
    rewrite !digits_value_app, digits_value_zeros, Hv.
    change (digits_value [48%N]) with 0%Z.
    rewrite length_app, length_replicate. f_equal; lia. }
  set (e := (n - 1)%Z).
  assert (e ≠ 0 ∧ (21 ≤ e ∨ e ≤ -7))%Z as [He0 He].
  { apply andb_false_iff in Hb, Hc'.
    rewrite Z.ltb_ge, Z.leb_gt in Hb, Hc'. lia. }
  rewrite Hdec.
  exists [c], r, (Some (negb (0 <=? e)%Z, decimal (Z.to_pos (Z.abs e)))).
  assert (exponent_value (Some (negb (0 <=? e)%Z, decimal (Z.to_pos (Z.abs e))))
          = e) as Hev.
  { simpl. rewrite digits_value_decimal.
    destruct (0 <=? e)%Z eqn:Hs; simpl; [apply Z.leb_le in Hs|apply Z.leb_gt in Hs];
      rewrite Z2Pos.id; lia. }
  assert (is_nil (decimal (Z.to_pos (Z.abs e))) = false) as Hne.
  { by destruct (decimal_head (Z.to_pos (Z.abs e))) as (? & ? & -> & _). }
  rewrite Hdec in Hds. apply Forall_cons in Hds as [_ Hr].
  split.
  { unfold number_text. destruct r as [|d r']; simpl;
      by destruct (0 <=? e)%Z. }
  split; [by repeat constructor|]. split; [done|]. split; [done|].
  split; [done|]. split; [split; [apply decimal_digits|done]|].
  rewrite Hev. change ([c] ++ r) with (c :: r). rewrite <- Hdec, Hv.
  f_equal. subst e n k. rewrite Hdec, length_cons. lia.
Qed.

Lemma parse_format_decimal (neg : bool) s e10 rest :
  number_end rest = true →
  parse_number ((if neg then [45%N] else []) ++ format_decimal s e10 ++ rest)
  = Some (let x := decimal_float (Z.pos s) e10 in
          if neg then (- x)%float else x, rest).
Proof.
  intros Hrest.
  destruct (format_decimal_pieces s e10)
    as (int & frac & ex & -> & Hint & Hnil & Hlz & Hfrac & Hex & Hval).
  rewrite app_assoc, <- number_text_sign.
  rewrite parse_number_pieces by done. cbv zeta. by rewrite Hval.
Qed.

(** ** A number written and read back *)

Lemma decimal_float_zero : decimal_float 0 0 = 0%float.
Proof. vm_compute. reflexivity. Qed.

Lemma Number_round_trip x rest :
  Number_is_finite x = true → number_end rest = true →
  parse_number (Number_toString x ++ rest) = Some (read_back x, rest).
Proof.
  intros Hfin Hrest. pose proof (Prim2SF_valid x) as Hvalid.
  unfold Number_is_finite, Number_toString, read_back in *.
  destruct (Prim2SF x) as [z| | |s m e] eqn:Hx; try done.
  - change (js "0") with (number_text false [48%N] [] None).
    rewrite parse_number_pieces by (done || by repeat constructor).
    by rewrite <- decimal_float_zero.
  - simpl in Hvalid. pose proof (shortest_reads_back m e Hvalid) as Hs.
    destruct (shortest m e) as [sd e10].
    rewrite <- app_assoc, parse_format_decimal by done. cbv zeta.
    unfold decimal_float. rewrite Hs. f_equal. f_equal.
    destruct s.
    + apply Prim2SF_inj. rewrite opp_spec, Prim2SF_SF2Prim, Hx; done.
    + by rewrite <- Hx, SF2Prim_Prim2SF.
Qed.

(** ** Reading a JSON text *)

Lemma parse_number_head s x rest :
  parse_number s = Some (x, rest) →
  ∃ c r, s = c :: r ∧ (c = 45%N ∨ is_digit c = true).
Proof.
  destruct s as [|c r]; [done|]. intros H. exists c, r. split; [done|].
  unfold parse_number in H. simpl starts in H.
  destruct (c =? 45)%N eqn:Hc; [left; by apply N.eqb_eq|]. right.
  simpl in H. by destruct (is_digit c).
Qed.

Lemma digit_enum c :
  is_digit c = true →
  (c = 48 ∨ c = 49 ∨ c = 50 ∨ c = 51 ∨ c = 52 ∨ c = 53 ∨ c = 54 ∨ c = 55
   ∨ c = 56 ∨ c = 57)%N.
Proof.
  unfold is_digit. intros [H1%N.leb_le H2%N.leb_le]%andb_true_iff. lia.
Qed.

Lemma parse_value_number f s x rest :
  parse_number s = Some (x, rest) →
  JSON.parse_value (S f) s = Some (VNum x, rest).
Proof.
  intros H. destruct (parse_number_head _ _ _ H) as (c & r & -> & Hc).
  assert (JSON.parse_value (S f) (c :: r)
          = '(x, rest) ← parse_number (c :: r); Some (VNum x, rest)) as ->.
  { destruct Hc as [->|Hc%digit_enum]; [reflexivity|].
    repeat (destruct Hc as [->|Hc]; [reflexivity|]). by subst. }
  by rewrite H.
Qed.

Lemma parse_value_serialize_number f x rest :
  number_end rest = true →
  JSON.parse_value (S f) (serialize_number x ++ rest)
  = Some (json_image x, rest).
Proof.
  intros Hrest. unfold serialize_number, json_image.
  destruct (Number_is_finite x) eqn:Hfin; [|reflexivity].
  apply parse_value_number. by apply Number_round_trip.
Qed.

Lemma parse_value_object f r :
  JSON.parse_value (S f) (123%N :: 34%N :: r)
  = JSON.parse_members f (34%N :: r) [].
Proof. reflexivity. Qed.

Lemma parse_members_step f s k r acc :
  parse_chars s = Some (k, 58%N :: r) →
  JSON.parse_members (S f) (34%N :: s) acc
  = '(v, r3) ← JSON.parse_value f r;
    match skip_ws r3 with
    | 44%N :: r4 => JSON.parse_members f r4 (define_property k v acc)
    | 125%N :: r4 => Some (VObj (define_property k v acc), r4)
    | _ => None
    end.
Proof.
  intros Hk. cbn [JSON.parse_members].
  change (skip_ws (34%N :: s)) with (34%N :: s). cbv iota.
  rewrite Hk. reflexivity.
Qed.

(** ** getJSON and fromJSON *)

Lemma parse_object_text f k1 k2 x1 x2 r1 r2 :
  parse_chars r1
  = Some (k1, 58%N :: serialize_number x1 ++ 44%N :: 34%N :: r2) →
  parse_chars r2 = Some (k2, 58%N :: serialize_number x2 ++ [125%N]) →
  JSON.parse_value (S (S (S (S f)))) (123%N :: 34%N :: r1)
  = Some (VObj (define_property k2 (json_image x2)
                  (define_property k1 (json_image x1) [])), []).
Proof.
  intros H1 H2. rewrite parse_value_object.
  erewrite parse_members_step by exact H1.
  rewrite parse_value_serialize_number by reflexivity.
  cbn [mbind option_bind skip_ws]. cbv iota.
  erewrite parse_members_step by exact H2.
  by rewrite parse_value_serialize_number.
Qed.

Lemma getJSON_rectangle w h :
  getJSON (own_properties (object_of (Rectangle w h)))
  = Some (object_text (js "width") (serialize_number w)
                      (js "height") (serialize_number h)).
Proof.
  unfold getJSON, JSON.stringify, object_text. simpl.
  by rewrite <- !app_assoc.
Qed.

Lemma parse_rectangle_text w h :
  JSON.parse (object_text (js "width") (serialize_number w)
                          (js "height") (serialize_number h))
  = Some (VObj [(js "width", json_image w); (js "height", json_image h)]).
Proof.
  unfold JSON.parse, object_text.
  let t := eval vm_compute in (quote (js "width")) in
    change (quote (js "width")) with t.
  let t := eval vm_compute in (quote (js "height")) in
    change (quote (js "height")) with t.
  cbn [app length].
  erewrite parse_object_text by reflexivity. reflexivity.
Qed.

(** An index key is enumerated before the other keys, wherever it stands
    in the text. *)
Lemma parse_index_text x1 x2 :
  JSON.parse (object_text (js "b") (serialize_number x1)
                          (js "1") (serialize_number x2))
  = Some (VObj [(js "1", json_image x2); (js "b", json_image x1)]).
Proof.
  unfold JSON.parse, object_text.
  let t := eval vm_compute in (quote (js "b")) in
    change (quote (js "b")) with t.
  let t := eval vm_compute in (quote (js "1")) in
    change (quote (js "1")) with t.
  cbn [app length].
  erewrite parse_object_text by reflexivity. reflexivity.
Qed.

Lemma round_trips_finite x : round_trips x = true → Number_is_finite x = true.
Proof. unfold round_trips, Number_is_finite. by destruct (Prim2SF x). Qed.

Lemma json_image_round_trips x :
  json_image x = VNum x ↔ round_trips x = true.
Proof.
  unfold json_image, round_trips, Number_is_finite, read_back.
  destruct (Prim2SF x) as [[]| | |s m e] eqn:Hx; simpl.
  - split; [|done]. intros [= H]. rewrite <- H in Hx. done.
  - split; [done|]. intros _. f_equal.
    by rewrite <- (SF2Prim_Prim2SF x), Hx.
  - done.
  - done.
  - done.
Qed.

Lemma fromJSON_rectangle_text w h :
  fromJSON Rectangle_prototype
    (object_text (js "width") (serialize_number w)
                 (js "height") (serialize_number h))
  = Some {| this_width := json_image w; this_height := json_image h |}.
Proof. unfold fromJSON. by rewrite parse_rectangle_text. Qed.

Lemma serialize_number_10 : serialize_number 10 = js "10".
Proof. vm_compute. reflexivity. Qed.

Lemma serialize_number_20 : serialize_number 20 = js "20".
Proof. vm_compute. reflexivity. Qed.

(** C10. [getJSON([1,2,3])] is ['[1,2,3]'].  [fromJSON(proto, json)] parses
    [json], takes the property values of the result in key-enumeration
    order (an index key such as ["1"] before the other keys, wherever it
    stands in the text) and passes them, in that order, to the constructor
    of [proto].  A rectangle of two numbers serialized by [getJSON] and
    read back by [fromJSON(Rectangle.prototype, ...)] is the rectangle of
    what [JSON] reads where it wrote the two sides, width then height as in
    the serialized keys: it has the same width and height exactly when both
    are finite numbers other than [-0]; [-0] comes back as [0], and NaN and
    the infinities, written [null], come back as [null]. *)
Theorem getJSON_fromJSON :
  getJSON (VArr [VNum 1; VNum 2; VNum 3]) = Some (js "[1,2,3]")
  ∧ (∀ T (proto : prototype T) json props,
       JSON.parse json = Some (VObj props) →
       fromJSON proto json = Some (constructor proto (props.*2)))
  ∧ (∀ x1 x2,
       fromJSON Rectangle_prototype
         (object_text (js "b") (serialize_number x1)
                      (js "1") (serialize_number x2))
       = Some {| this_width := json_image x2; this_height := json_image x1 |})
  ∧ (∀ w h,
       ∃ json,
         getJSON (own_properties (object_of (Rectangle w h))) = Some json
         ∧ fromJSON Rectangle_prototype json
           = Some {| this_width := json_image w;
                     this_height := json_image h |})
  ∧ (∀ w h json,
       getJSON (own_properties (object_of (Rectangle w h))) = Some json →
       fromJSON Rectangle_prototype json = Some (object_of (Rectangle w h))
       ↔ round_trips w = true ∧ round_trips h = true)
  ∧ getJSON (own_properties (object_of (Rectangle 10 20)))
    = Some (object_text (js "width") (js "10") (js "height") (js "20"))
  ∧ fromJSON Rectangle_prototype
      (object_text (js "width") (js "10") (js "height") (js "20"))
    = Some (object_of (Rectangle 10 20)).
Proof.
  split; [by vm_compute|].
  split; [by intros T proto json props Hv; unfold fromJSON; rewrite Hv|].
  split.
  { intros x1 x2. unfold fromJSON. by rewrite parse_index_text. }
  split.
  { intros w h. eexists. split; [apply getJSON_rectangle|].
    apply fromJSON_rectangle_text. }
  split.
  { intros w h json. rewrite getJSON_rectangle. intros [= <-].
    rewrite fromJSON_rectangle_text. unfold object_of. simpl.
    rewrite <- !json_image_round_trips. split.
    - by intros [= -> ->].
    - by intros [-> ->]. }
  split.
  { by rewrite getJSON_rectangle, serialize_number_10, serialize_number_20. }
  rewrite <- serialize_number_10, <- serialize_number_20.
  rewrite fromJSON_rectangle_text. reflexivity.
Qed.

Lemma getJSON_fromJSON_witness :
  JSON.parse (object_text (js "width") (js "10") (js "height") (js "20"))
  = Some (VObj [(js "width", VNum 10); (js "height", VNum 20)])
  ∧ fromJSON Rectangle_prototype
      (object_text (js "width") (js "10") (js "height") (js "20"))
    = Some (new_Rectangle [VNum 10; VNum 20])
  ∧ getJSON (own_properties (object_of (Rectangle 10 20)))
    = Some (object_text (js "width") (js "10") (js "height") (js "20"))
  ∧ (fromJSON Rectangle_prototype
       (object_text (js "width") (js "10") (js "height") (js "20"))
     = Some (object_of (Rectangle 10 20))
     ↔ round_trips 10 = true ∧ round_trips 20 = true).
Proof.
  split; [vm_compute; reflexivity|].
  split.
  { apply (proj1 (proj2 getJSON_fromJSON) _ Rectangle_prototype
             (object_text (js "width") (js "10") (js "height") (js "20"))
             [(js "width", VNum 10); (js "height", VNum 20)]).
    vm_compute; reflexivity. }
  split; [vm_compute; reflexivity|].
  apply (proj1 (proj2 (proj2 (proj2 (proj2 getJSON_fromJSON))))
           10%float 20%float).
  vm_compute; reflexivity.
Defined.

(** C10 as stated fails on a rectangle one of whose sides is not a finite
    number: [new Rectangle(NaN, 1)] is serialized as
    [{"width":null,"height":1}] and read back as the rectangle whose width
    is [null]. *)
Lemma getJSON_fromJSON_nan :
  getJSON (own_properties (object_of (Rectangle nan 1)))
  = Some (object_text (js "width") (js "null") (js "height") (js "1"))
  ∧ fromJSON Rectangle_prototype
      (object_text (js "width") (js "null") (js "height") (js "1"))
    = Some {| this_width := VNull; this_height := VNum 1 |}
  ∧ fromJSON Rectangle_prototype
      (object_text (js "width") (js "null") (js "height") (js "1"))
    ≠ Some (object_of (Rectangle nan 1)).
Proof.
  assert (fromJSON Rectangle_prototype
            (object_text (js "width") (js "null") (js "height") (js "1"))
          = Some {| this_width := VNull; this_height := VNum 1 |}) as H
    by (vm_compute; reflexivity).
  split; [vm_compute; reflexivity|]. split; [exact H|].
  rewrite H. intros [= ?].
Qed.

(** * Further properties of the selector builder *)

(** ** Sequences the constructor accepts *)

Lemma p_inj k1 k2 : p k1 = p k2 → k1 = k2.
Proof. by destruct k1, k2. Qed.

Lemma rank_sorted_app_l xs ys : rank_sorted (xs ++ ys) → rank_sorted xs.
Proof.
  intros Hs i j e1 e2 Hij Hi Hj.
  apply (Hs i j); [done|by apply lookup_app_l_Some..].
Qed.

Lemma ordered_app_l xs ys : ordered (xs ++ ys) = true → ordered xs = true.
Proof. rewrite !ordered_sorted. apply rank_sorted_app_l. Qed.

Lemma rank_sorted_snoc xs k t :
  rank_sorted (xs ++ [(k, t)])
  ↔ rank_sorted xs ∧ Forall (λ e, (p e.1 ≤ p k)%Z) xs.
Proof.
  split.
  - intros Hs. split; [by eapply rank_sorted_app_l|].
    apply Forall_lookup. intros i e Hi.
    apply (Hs i (length xs) e (k, t)).
    + apply lookup_lt_Some in Hi. lia.
    + by apply lookup_app_l_Some.
    + apply lookup_snoc.
  - intros [Hs Hall] i j e1 e2 Hij Hi Hj.
    apply lookup_app_Some in Hj as [Hj|[Hlen Hj]].
    + apply lookup_app_Some in Hi as [Hi|[Hlen _]].
      * by apply (Hs i j).
      * apply lookup_lt_Some in Hj. lia.
    + apply list_lookup_singleton_Some in Hj as [_ <-].
      apply lookup_app_Some in Hi as [Hi|[_ Hi]].
      * by apply (proj1 (Forall_lookup _ _) Hall i e1).
      * apply list_lookup_singleton_Some in Hi as [_ <-]. simpl. lia.
Qed.

Lemma has_kind_lookup k xs :
  has_kind k xs = true ↔ ∃ i t, xs !! i = Some (k, t).
Proof.
  rewrite has_kind_elem_of. split.
  - intros [t [i Hi]%list_elem_of_lookup]. eauto.
  - intros (i & t & Hi). exists t. apply list_elem_of_lookup. eauto.
Qed.

Lemma singletons_app_l xs ys : singletons (xs ++ ys) → singletons xs.
Proof.
  intros Hs k i j ti tj Hg Hi Hj.
  apply (Hs k i j ti tj Hg); by apply lookup_app_l_Some.
Qed.

Lemma singletons_snoc xs k t :
  singletons (xs ++ [(k, t)])
  ↔ singletons xs ∧ (guarded k = true → has_kind k xs = false).
Proof.
  split.
  - intros Hs. split; [by eapply singletons_app_l|].
    intros Hg. apply not_true_iff_false.
    intros (i & t' & Hi)%has_kind_lookup.
    pose proof (lookup_lt_Some _ _ _ Hi) as Hlt.
    assert (i = length xs); [|lia].
    apply (Hs k i (length xs) t' t Hg);
      [by apply lookup_app_l_Some|apply lookup_snoc].
  - intros [Hs Hk] k' i j ti tj Hg Hi Hj.
    assert (∀ n tn, (xs ++ [(k, t)]) !! n = Some (k', tn) →
              xs !! n = Some (k', tn) ∨ (n = length xs ∧ k' = k)) as Hcase.
    { intros n tn [Hn|[Hlen Hn]]%lookup_app_Some; [by left|right].
      apply list_lookup_singleton_Some in Hn as [Hn [= -> _]].
      split; [lia|done]. }
    assert (∀ n tn, xs !! n = Some (k', tn) → k' = k → False) as Hno.
    { intros n tn Hn ->. specialize (Hk Hg).
      apply not_true_iff_false in Hk. apply Hk, has_kind_lookup. eauto. }
    destruct (Hcase _ _ Hi) as [Hi'|[-> Hki]], (Hcase _ _ Hj) as [Hj'|[-> Hkj]].
    + by apply (Hs k' i j ti tj).
    + by destruct (Hno _ _ Hi' Hkj).
    + by destruct (Hno _ _ Hj' Hki).
    + done.
Qed.

(** ** Builders made by chains *)

Lemma chained_invariant h b :
  chained h b →
  ∃ xs, frags h b = Some xs ∧ ordered xs = true ∧ singletons xs.
Proof.
  induction 1 as [h0 h b Hroot|k s h b h' b' _ (xs & Hx & Ho & Hs) Hadd
                 |h h' b _ (xs & Hx & Ho & Hs) Hext].
  - rewrite cssSelectorBuilder_run in Hroot. injection Hroot as <- <-.
    exists []. rewrite frags_grown. repeat split.
    by intros k [|i] j ti tj.
  - destruct (add_normal _ _ _ _ _ _ _ Hx Hadd) as (Hg & Ho' & -> & ->).
    eexists. rewrite frags_grown. repeat split; [done|].
    apply singletons_snoc. split; [done|].
    intros Hk. by rewrite Hk in Hg.
  - exists xs. eauto using frags_extends.
Qed.

(** X1. In every builder reached from [cssSelectorBuilder] by the
    fragment-adding methods, a fragment of kind element, of kind id and of
    kind pseudoElement occurs at most once. *)
Theorem chained_singletons h b :
  chained h b → ∃ xs, frags h b = Some xs ∧ singletons xs.
Proof. intros (xs & ? & _ & ?)%chained_invariant. eauto. Qed.

Lemma chained_singletons_witness :
  let h := Heap [[]; [(KElement, "a")]; [(KElement, "a"); (KId, "#main")]]
                [0; 1; 2] in
  chained h 2 ∧ ∃ xs, frags h 2 = Some xs ∧ singletons xs.
Proof.
  assert (chained (Heap [[]] [0]) 0) as H0
    by (apply (chained_root heap0); reflexivity).
  assert (chained (Heap [[]; [(KElement, "a")]] [0; 1]) 1) as H1
    by (apply (chained_add KElement "a" _ _ _ _ H0); reflexivity).
  intros h.
  assert (chained h 2) as H2
    by (apply (chained_add KId "main" _ _ _ _ H1); reflexivity).
  split; [exact H2|]. exact (chained_singletons h 2 H2).
Defined.

Lemma admissible_spec k xs :
  admissible k xs
  ↔ Forall (λ e, (p e.1 ≤ p k)%Z) xs ∧ (guarded k = true → has_kind k xs = false).
Proof.
  unfold admissible. rewrite !Forall_forall. split.
  - intros Hall. split.
    + intros e He. specialize (Hall e He). destruct (guarded k); lia.
    + intros Hg. apply not_true_iff_false.
      intros [t Ht]%has_kind_elem_of. specialize (Hall _ Ht).
      rewrite Hg in Hall. simpl in Hall. lia.
  - intros [Hle Hk] [k' t] He. specialize (Hle _ He). simpl in *.
    destruct (guarded k) eqn:Hg; [|done].
    assert (k' ≠ k) as Hne.
    { intros ->. specialize (Hk eq_refl). apply not_true_iff_false in Hk.
      apply Hk, has_kind_elem_of. eauto. }
    assert (p k' ≠ p k) by (intros ?%p_inj; done). lia.
Qed.

(** X2. On a builder reached by the fragment-adding methods, a further
    call returns a builder exactly when every fragment already there has a
    rank below that of the new kind, for [element], [id] and
    [pseudoElement], or at most that of the new kind, for [class], [attr]
    and [pseudoClass]; so [element] returns only on a builder without
    fragments. *)
Theorem add_returns_iff_admissible h b xs k s :
  chained h b → frags h b = Some xs →
  ((∃ h' b', add k b s h = (h', Normal b')) ↔ admissible k xs)
  ∧ ((∃ h' b', SB.element b s h = (h', Normal b')) ↔ xs = []).
Proof.
  intros (xs' & Hx' & Ho & Hs)%chained_invariant Hx.
  assert (xs' = xs) as -> by congruence.
  assert (∀ k s, (∃ h' b', add k b s h = (h', Normal b')) ↔ admissible k xs)
    as Hiff.
  { clear k s. intros k s. rewrite admissible_spec, (add_run _ _ _ _ _ Hx).
    split.
    - destruct (guarded k && has_kind k xs) eqn:Hg;
        [by intros (h' & b' & [=])|].
      destruct (ordered (xs ++ [(k, render k s)])) eqn:Ho';
        [|by intros (h' & b' & [=])].
      intros _.
      apply ordered_sorted, rank_sorted_snoc in Ho' as [_ Hall].
      split; [done|]. intros Hk. by rewrite Hk in Hg.
    - intros [Hall Hk].
      assert (guarded k && has_kind k xs = false) as ->.
      { destruct (guarded k); [|done]. by rewrite Hk. }
      assert (ordered (xs ++ [(k, render k s)]) = true) as ->.
      { apply ordered_sorted, rank_sorted_snoc. split; [|done].
        by apply ordered_sorted. }
      eauto. }
  split; [apply Hiff|].
  change (SB.element b s) with (add KElement b s). rewrite Hiff.
  unfold admissible. simpl. split.
  - destruct xs as [|[k' t] xs]; [done|].
    intros Hall. apply Forall_cons in Hall as [Hlt _].
    simpl in Hlt. destruct k'; simpl in Hlt; lia.
  - intros ->. constructor.
Qed.

Lemma add_returns_iff_admissible_witness :
  let h := Heap [[]; [(KElement, "a")]] [0; 1] in
  chained h 1 ∧ frags h 1 = Some [(KElement, "a")]
  ∧ ((∃ h' b', add KClass 1 "c" h = (h', Normal b'))
     ↔ admissible KClass [(KElement, "a")])
  ∧ ((∃ h' b', SB.element 1 "b" h = (h', Normal b'))
     ↔ [(KElement, "a")] = []).
Proof.
  assert (chained (Heap [[]] [0]) 0) as H0
    by (apply (chained_root heap0); reflexivity).
  intros h.
  assert (chained h 1) as H1
    by (apply (chained_add KElement "a" _ _ _ _ H0); reflexivity).
  split; [exact H1|]. split; [reflexivity|].
  split.
  - exact (proj1 (add_returns_iff_admissible h 1 [(KElement, "a")]
                    KClass "c" H1 eq_refl)).
  - exact (proj2 (add_returns_iff_admissible h 1 [(KElement, "a")]
                    KElement "b" H1 eq_refl)).
Defined.

(** ** Chains of calls *)

Lemma chain_from calls : ∀ xs h b,
  frags h b = Some xs → ordered xs = true → singletons xs →
  match chain calls b h with
  | (h', Normal b') =>
      frags h' b' = Some (xs ++ rendered calls)
      ∧ ordered (xs ++ rendered calls) = true
      ∧ singletons (xs ++ rendered calls)
  | (h', Throw e) =>
      ¬ (ordered (xs ++ rendered calls) = true
         ∧ singletons (xs ++ rendered calls))
      ∧ (e = Error err1 ∨ e = Error err2)
  end.
Proof.
  induction calls as [|[k v] calls IH]; intros xs h b Hx Ho Hs.
  - simpl. by rewrite (right_id_L [] (++)).
  - cbn [chain]. unfold mbind, M_bind. rewrite (add_run _ _ _ _ _ Hx).
    assert (xs ++ rendered ((k, v) :: calls)
            = (xs ++ [(k, render k v)]) ++ rendered calls) as ->
      by (by rewrite <- (assoc_L (++))).
    destruct (guarded k && has_kind k xs) eqn:Hg.
    { split; [|by right]. intros [_ Hs'].
      apply (singletons_app_l (xs ++ [(k, render k v)])) in Hs'.
      apply singletons_snoc in Hs' as [_ Hk].
      apply andb_true_iff in Hg as [Hg Hh]. rewrite (Hk Hg) in Hh. done. }
    destruct (ordered (xs ++ [(k, render k v)])) eqn:Ho'.
    + apply IH; [apply frags_grown|done|].
      apply singletons_snoc. split; [done|].
      intros Hk. by rewrite Hk in Hg.
    + split; [|by left]. intros [Ho'' _].
      apply (ordered_app_l (xs ++ [(k, render k v)])) in Ho''. congruence.
Qed.

(** X3. A chain of fragment-adding calls on a builder without fragments
    returns a builder exactly when the kinds of the calls are in
    non-decreasing rank order and none of element, id and pseudoElement is
    called twice; the builder then holds one fragment per call, in call
    order, and [stringify] gives their texts one after the other.  A chain
    that does not return throws one of the two errors of the class. *)
Theorem chain_returns_iff h b calls :
  frags h b = Some [] →
  ((∃ h' b', chain calls b h = (h', Normal b'))
   ↔ rank_sorted (rendered calls) ∧ singletons (rendered calls))
  ∧ (∀ h' b', chain calls b h = (h', Normal b') →
       frags h' b' = Some (rendered calls)
       ∧ SB.stringify b' h' = (h', Normal (text (rendered calls))))
  ∧ (∀ h' e, chain calls b h = (h', Throw e) →
       e = Error err1 ∨ e = Error err2).
Proof.
  intros Hx.
  assert (singletons []) as Hs0 by (by intros k [|i] j ti tj).
  pose proof (chain_from calls [] h b Hx eq_refl Hs0) as Hc.
  change ([] ++ rendered calls) with (rendered calls) in Hc.
  destruct (chain calls b h) as [h1 [b1|e]]; rewrite ordered_sorted in Hc.
  - destruct Hc as (Hf & Ho & Hs). split; [|split].
    + split; [done|eauto].
    + intros h' b' [= <- <-]. split; [done|].
      by rewrite (stringify_run _ _ _ Hf), join_text.
    + by intros h' e [=].
  - destruct Hc as [Hn He]. split; [|split].
    + split; [by intros (h' & b' & [=])|done].
    + by intros h' b' [=].
    + by intros h' e' [= <- <-].
Qed.

Lemma chain_returns_iff_witness :
  let h := Heap [[]] [0] in
  let calls := [(KElement, "a"); (KAttr, "href"); (KPseudoClass, "focus")] in
  frags h 0 = Some []
  ∧ ((∃ h' b', chain calls 0 h = (h', Normal b'))
     ↔ rank_sorted (rendered calls) ∧ singletons (rendered calls))
  ∧ (chain calls 0 ≫= SB.stringify) h
    = (Heap [[]; [(KElement, "a")]; [(KElement, "a"); (KAttr, "[href]")];
             [(KElement, "a"); (KAttr, "[href]"); (KPseudoClass, ":focus")]]
            [0; 1; 2; 3], Normal "a[href]:focus").
Proof.
  intros h calls. split; [reflexivity|]. split; [|reflexivity].
  exact (proj1 (chain_returns_iff h 0 calls eq_refl)).
Defined.

(** ** combine and stringify *)

Lemma stringify_stuck h b :
  frags h b = None → SB.stringify b h = (h, Throw TypeError).
Proof.
  unfold frags, SB.stringify, mbind, M_bind, get_a, array_get.
  destruct (objects h !! b) as [a|]; simpl; [|done]. by intros ->.
Qed.

Lemma stringify_inv h b h' t :
  SB.stringify b h = (h', Normal t) →
  ∃ xs, frags h b = Some xs ∧ t = text xs.
Proof.
  destruct (frags h b) as [xs|] eqn:Hx.
  - rewrite (stringify_run _ _ _ Hx), join_text. intros [= <- <-]. eauto.
  - by rewrite (stringify_stuck _ _ Hx).
Qed.

(** X4. The string of a combined builder is the string of the receiver,
    the string of the left operand, the combinator between two spaces and
    the string of the right operand, one after the other; called on a
    receiver with the empty string, such as [cssSelectorBuilder], it is
    [stringify(s1) + ' ' + c + ' ' + stringify(s2)]. *)
Theorem stringify_combine h this s1 c s2 t0 t1 t2 :
  SB.stringify this h = (h, Normal t0) →
  SB.stringify s1 h = (h, Normal t1) →
  SB.stringify s2 h = (h, Normal t2) →
  ((cb ← SB.combine this s1 c s2; SB.stringify cb) h).2
  = Normal (t0 +:+ t1 +:+ " " +:+ c +:+ " " +:+ t2).
Proof.
  intros (xs & Hx & ->)%stringify_inv (ls & Hl & ->)%stringify_inv
    (rs & Hr & ->)%stringify_inv.
  destruct (combine_run h this s1 c s2 xs ls rs Hx Hl Hr) as (h' & Hrun & Hf).
  unfold mbind, M_bind. rewrite Hrun, (stringify_run _ _ _ Hf), join_text.
  simpl. rewrite !text_app.
  change (text ((KElement, " " +:+ c +:+ " ") :: rs))
    with ((" " +:+ c +:+ " ") +:+ text rs).
  by rewrite !append_assoc.
Qed.

Lemma stringify_combine_witness :
  let h := Heap [[]; [(KElement, "div")]; [(KElement, "td"); (KClass, ".x")]]
                [0; 1; 2] in
  SB.stringify 0 h = (h, Normal "")
  ∧ SB.stringify 1 h = (h, Normal "div")
  ∧ SB.stringify 2 h = (h, Normal "td.x")
  ∧ ((cb ← SB.combine 0 1 ">" 2; SB.stringify cb) h).2
    = Normal ("" +:+ "div" +:+ " " +:+ ">" +:+ " " +:+ "td.x").
Proof.
  intros h. do 3 (split; [reflexivity|]).
  exact (stringify_combine h 0 1 ">" 2 "" "div" "td.x"
           eq_refl eq_refl eq_refl).
Defined.

(** X5. Nesting [combine] to the left or to the right gives builders with
    the same fragments, hence the same string: on a receiver without
    fragments, [combine(combine(a, c1, b), c2, d)] and
    [combine(a, c1, combine(b, c2, d))] both hold the fragments of [a],
    the combinator [c1], those of [b], the combinator [c2], those of
    [d]. *)
Theorem combine_assoc h r a b d c1 c2 xa xb xd :
  frags h r = Some [] →
  frags h a = Some xa → frags h b = Some xb → frags h d = Some xd →
  ∃ hl bl hr br,
    (x ← SB.combine r a c1 b; SB.combine r x c2 d) h = (hl, Normal bl)
    ∧ (y ← SB.combine r b c2 d; SB.combine r a c1 y) h = (hr, Normal br)
    ∧ frags hl bl = Some (xa ++ [(KElement, " " +:+ c1 +:+ " ")] ++ xb
                             ++ [(KElement, " " +:+ c2 +:+ " ")] ++ xd)
    ∧ frags hr br = frags hl bl.
Proof.
  intros Hr Ha Hb Hd.
  destruct (combine_run h r a c1 b [] xa xb Hr Ha Hb) as (h1 & Hrun1 & Hf1).
  assert (extends h h1) as Hext1.
  { pose proof (combine_extensive r a c1 b h) as He. by rewrite Hrun1 in He. }
  destruct (combine_run h1 r (length (objects h)) c2 d [] _ xd
              (frags_extends _ _ _ _ Hext1 Hr) Hf1
              (frags_extends _ _ _ _ Hext1 Hd)) as (h2 & Hrun2 & Hf2).
  destruct (combine_run h r b c2 d [] xb xd Hr Hb Hd) as (h3 & Hrun3 & Hf3).
  assert (extends h h3) as Hext3.
  { pose proof (combine_extensive r b c2 d h) as He. by rewrite Hrun3 in He. }
  destruct (combine_run h3 r a c1 (length (objects h)) [] xa _
              (frags_extends _ _ _ _ Hext3 Hr)
              (frags_extends _ _ _ _ Hext3 Ha) Hf3) as (h4 & Hrun4 & Hf4).
  exists h2, (length (objects h1)), h4, (length (objects h3)).
  unfold mbind, M_bind. rewrite Hrun1, Hrun2, Hrun3, Hrun4.
  split; [done|]. split; [done|].
  rewrite Hf2, Hf4. simpl. rewrite <- !(assoc_L (++)). simpl. done.
Qed.

Lemma combine_assoc_witness :
  let h := Heap [[]; [(KElement, "a")]; [(KId, "#b")]; [(KClass, ".d")]]
                [0; 1; 2; 3] in
  frags h 0 = Some [] ∧ frags h 1 = Some [(KElement, "a")]
  ∧ frags h 2 = Some [(KId, "#b")] ∧ frags h 3 = Some [(KClass, ".d")]
  ∧ ∃ hl bl hr br,
      (x ← SB.combine 0 1 "+" 2; SB.combine 0 x "~" 3) h = (hl, Normal bl)
      ∧ (y ← SB.combine 0 2 "~" 3; SB.combine 0 1 "+" y) h = (hr, Normal br)
      ∧ frags hl bl
        = Some ([(KElement, "a")] ++ [(KElement, " " +:+ "+" +:+ " ")]
                ++ [(KId, "#b")] ++ [(KElement, " " +:+ "~" +:+ " ")]
                ++ [(KClass, ".d")])
      ∧ frags hr br = frags hl bl.
Proof.
  intros h. do 4 (split; [reflexivity|]).
  exact (combine_assoc h 0 1 2 3 "+" "~" [(KElement, "a")] [(KId, "#b")]
           [(KClass, ".d")] eq_refl eq_refl eq_refl eq_refl).
Defined.

(** X6. A combined builder whose receiver or left operand holds a fragment
    other than an element can not be extended: the combinator, of element
    rank, stands after that fragment, so every fragment-adding method
    called on the combined builder throws, the duplicate error or the
    ordering error, whatever the store has become. *)
Theorem combined_rejects_add h this s1 c s2 xs ls rs h' cb e :
  frags h this = Some xs → frags h s1 = Some ls → frags h s2 = Some rs →
  e ∈ xs ++ ls → (0 < p e.1)%Z →
  SB.combine this s1 c s2 h = (h', Normal cb) →
  ∀ h'' k s, extends h' h'' →
    add k cb s h'' = (h'', Throw (Error err2))
    ∨ (add k cb s h'').2 = Throw (Error err1).
Proof.
  intros Hx Hl Hr He Hp Hc h'' k s Hext.
  destruct (combine_run h this s1 c s2 xs ls rs Hx Hl Hr) as (h1 & Hrun & Hf).
  rewrite Hrun in Hc. injection Hc as <- <-.
  pose proof (frags_extends _ _ _ _ Hext Hf) as Hf'.
  rewrite (add_run _ _ _ _ _ Hf').
  destruct (guarded k && has_kind k _); [by left|right].
  destruct (ordered _) eqn:Ho; [exfalso|done].
  assert ((xs ++ ls ++ [(KElement, " " +:+ c +:+ " ")] ++ rs)
            ++ [(k, render k s)]
          = ((xs ++ ls) ++ [(KElement, " " +:+ c +:+ " ")])
              ++ (rs ++ [(k, render k s)])) as Heq
    by (by rewrite <- !(assoc_L (++))).
  rewrite Heq in Ho. apply ordered_app_l in Ho.
  apply ordered_sorted, rank_sorted_snoc in Ho as [_ Hall].
  apply (proj1 (Forall_forall _ _) Hall) in He. simpl in He. lia.
Qed.

Lemma combined_rejects_add_witness :
  let h := Heap [[]; [(KId, "#a")]; [(KClass, ".b")]] [0; 1; 2] in
  let h' := Heap [[]; [(KId, "#a")]; [(KClass, ".b")]; [(KId, "#a")];
                  [(KId, "#a"); (KElement, " > ")];
                  [(KId, "#a"); (KElement, " > "); (KClass, ".b")]]
                 [0; 1; 2; 5] in
  frags h 0 = Some [] ∧ frags h 1 = Some [(KId, "#a")]
  ∧ frags h 2 = Some [(KClass, ".b")]
  ∧ (KId, "#a") ∈ [] ++ [(KId, "#a")] ∧ (0 < p (KId, "#a").1)%Z
  ∧ SB.combine 0 1 ">" 2 h = (h', Normal 3)
  ∧ ∀ h'' k s, extends h' h'' →
      add k 3 s h'' = (h'', Throw (Error err2))
      ∨ (add k 3 s h'').2 = Throw (Error err1).
Proof.
  intros h h'.
  assert ((KId, "#a") ∈ [] ++ [(KId, "#a")]) as Hin by (simpl; left).
  do 3 (split; [reflexivity|]). split; [exact Hin|].
  split; [reflexivity|]. split; [reflexivity|].
  exact (combined_rejects_add h 0 1 ">" 2 [] [(KId, "#a")] [(KClass, ".b")]
           h' 3 (KId, "#a") eq_refl eq_refl eq_refl Hin eq_refl eq_refl).
Defined.


(** * Further properties of fromJSON *)

Lemma getJSON_swapped w h :
  getJSON (VObj [(js "height", VNum h); (js "width", VNum w)])
  = Some (object_text (js "height") (serialize_number h)
                      (js "width") (serialize_number w)).
Proof.
  unfold getJSON, JSON.stringify, object_text. simpl.
  by rewrite <- !app_assoc.
Qed.

Lemma parse_swapped_text w h :
  JSON.parse (object_text (js "height") (serialize_number h)
                          (js "width") (serialize_number w))
  = Some (VObj [(js "height", json_image h); (js "width", json_image w)]).
Proof.
  unfold JSON.parse, object_text.
  let t := eval vm_compute in (quote (js "width")) in
    change (quote (js "width")) with t.
  let t := eval vm_compute in (quote (js "height")) in
    change (quote (js "height")) with t.
  cbn [app length].
  erewrite parse_object_text by reflexivity. reflexivity.
Qed.

(** X7. [fromJSON] goes by position, not by property name: an object whose
    [height] was created before its [width], serialized by [getJSON] and
    read by [fromJSON(Rectangle.prototype, ...)], comes back as the
    rectangle with the two sides exchanged, its width being the height of
    the object (sides finite numbers other than [-0]). *)
Theorem fromJSON_positional w h :
  round_trips w = true → round_trips h = true →
  ∃ json,
    getJSON (VObj [(js "height", VNum h); (js "width", VNum w)]) = Some json
    ∧ fromJSON Rectangle_prototype json = Some (object_of (Rectangle h w))
    ∧ (fromJSON Rectangle_prototype json = Some (object_of (Rectangle w h)) →
       w = h).
Proof.
  intros Hw%json_image_round_trips Hh%json_image_round_trips.
  eexists. split; [apply getJSON_swapped|].
  assert (fromJSON Rectangle_prototype
            (object_text (js "height") (serialize_number h)
                         (js "width") (serialize_number w))
          = Some (object_of (Rectangle h w))) as Hfrom.
  { unfold fromJSON. rewrite parse_swapped_text. simpl. by rewrite Hw, Hh. }
  split; [done|]. rewrite Hfrom. by intros [= -> _].
Qed.

Lemma fromJSON_positional_witness :
  round_trips 10 = true ∧ round_trips 20 = true
  ∧ ∃ json,
      getJSON (VObj [(js "height", VNum 20); (js "width", VNum 10)])
      = Some json
      ∧ fromJSON Rectangle_prototype json = Some (object_of (Rectangle 20 10))
      ∧ (fromJSON Rectangle_prototype json = Some (object_of (Rectangle 10 20)) →
         10%float = 20%float).
Proof.
  do 2 (split; [reflexivity|]).
  exact (fromJSON_positional 10%float 20%float eq_refl eq_refl).
Defined.
